(** * pytket-qiskit, Aer backends: noise-model characterisation, compilation
      policy, submission and the result-handle cache.

    A shallow embedding of [pytket/extensions/qiskit/backends/aer.py].

    Conventions of the embedding.
    - A Python [dict] is a [gmap], a [set] is a [gset]; iterating over a set
      goes through [elements], whose order is fixed but unspecified, like the
      iteration order of a Python set.  The coupling list is a [list]: order
      and repetitions are kept.
    - A raised exception is the [Raise] branch of [result].  Code that mutates
      the backend object before it raises is a state transformer that returns
      the state reached together with the exception.
    - Python floats are idealised as exact rationals ([Q]): [1 - f] and
      [1 - f**2] carry no rounding.  Equalities between computed numbers are
      stated up to [Qeq] where a quotient is involved.
    - Qubit indices, positions in a job and qubit counts are [nat]. *)

From Stdlib Require Import QArith Lqa Ascii.
From stdpp Require Import gmap strings list fin_maps pretty.

Set Default Proof Using "Type".
#[global] Set Warnings "-clear-no-such-hyp,-register-all,-notation-for-abbreviation".

(** ** Exceptions and results *)

(** A result handle is the tuple [(jobid, position, n_qubits, ppcirc)], of
    type [(str, int, int, str)] ([_result_id_type]). *)
Abbreviation ResultHandle := (string * nat * nat * string)%type (only parsing).

Inductive exn : Type :=
  | RuntimeWarning (msg : string)
  | RuntimeError (msg : string)
  | NotImplementedError (msg : string)
  | CircuitNotRunError (handle : ResultHandle)
  | CircuitNotValidError
  | AssertionError
  | AttributeError
  | KeyError
  | IndexError
  | TypeError
  | ValueError (msg : string)
  | ZeroDivisionError.

Inductive result (A : Type) : Type :=
  | Ok (a : A)
  | Raise (e : exn).
Arguments Ok {A} a.
Arguments Raise {A} e.

Definition rbind {A B} (r : result A) (k : A → result B) : result B :=
  match r with
  | Ok a => k a
  | Raise e => Raise e
  end.

Global Instance result_ret : MRet result := λ A a, Ok a.
Global Instance result_bind : MBind result := λ A B k r, rbind r k.
Global Instance result_fmap : FMap result := λ A B f r, rbind r (λ a, Ok (f a)).

Definition is_Ok {A} (r : result A) : Prop := ∃ a, r = Ok a.
Definition is_Raise {A} (r : result A) : Prop := ∃ e, r = Raise e.

(** [d[k]] on a plain dict: [KeyError] when the key is absent. *)
Definition getitem `{Countable K} {V} (d : gmap K V) (k : K) : result V :=
  match d !! k with
  | Some v => Ok v
  | None => Raise KeyError
  end.

(** [l[i]] on a list: [IndexError] when out of range. *)
Definition list_getitem {A} (l : list A) (i : nat) : result A :=
  match l !! i with
  | Some v => Ok v
  | None => Raise IndexError
  end.

(** ** pytket values used by the backend *)

(** [pytket.circuit.OpType] is an enumeration of the pytket library; a member
    is identified by its name. *)
Record OpType : Type := mkOpType { op_name : string }.

Global Instance OpType_eq_dec : EqDecision OpType.
Proof. solve_decision. Defined.
Global Instance OpType_countable : Countable OpType.
Proof. apply (inj_countable' op_name mkOpType). by intros []. Defined.

Module Op.
Definition CX := mkOpType "CX".
Definition CZ := mkOpType "CZ".
Definition TK1 := mkOpType "TK1".
Definition H := mkOpType "H".
Definition X := mkOpType "X".
Definition Rz := mkOpType "Rz".
Definition Measure := mkOpType "Measure".
Definition Reset := mkOpType "Reset".
Definition Barrier := mkOpType "Barrier".
Definition Conditional := mkOpType "Conditional".
Definition RangePredicate := mkOpType "RangePredicate".
Definition Unitary1qBox := mkOpType "Unitary1qBox".
Definition Unitary2qBox := mkOpType "Unitary2qBox".
Definition Unitary3qBox := mkOpType "Unitary3qBox".
End Op.

(** [Node(q)] of the default node register is identified with its index. *)
Abbreviation Node := nat (only parsing).

(** [pytket.architecture.Architecture(coupling_map)]: the coupling list as it
    was given; [nodes] are the nodes that occur in it. *)
Record Architecture : Type := mkArchitecture { coupling : list (Node * Node) }.

Definition nodes (a : Architecture) : list Node :=
  remove_dups (flat_map (λ p, [p.1; p.2]) (coupling a)).

(** What [BackendInfo.architecture] holds: an [Architecture] or
    [FullyConnected(n)]. *)
Inductive ArchitectureSpec : Type :=
  | Arch (a : Architecture)
  | FullyConnected (n : nat).

(** ** Noise-model characterisation *)

Module Noise.

(** The [instructions] field of a quantum error: passed through to the generic
    error log, never inspected. *)
Definition Instructions : Type := list (list string).

(** An entry of [noise_model.to_dict()["errors"]] is a dict tagged by its
    ["type"] key: a [QuantumError] carries [instructions] and a list of
    probabilities, a [ReadoutError] carries the assignment matrix under
    [probabilities].  An entry with any other tag is dropped by the filter at
    the head of [_process_noise_model]; it is taken to carry [probabilities]
    and no [instructions]. *)
Inductive Probabilities : Type :=
  | QProbs (ps : list Q)
  | ROProbs (m : list (list Q)).

Inductive ErrorBody : Type :=
  | qerror (instructions : Instructions) (probabilities : list Q)
  | roerror (probabilities : list (list Q))
  | other_type (type : string) (probabilities : Probabilities).

(** [gate_qubits] is absent ([None]) for an all-qubit error; when present it is
    a list holding the tuple of target qubits. *)
Record ErrorEvent : Type := mkErrorEvent {
  body : ErrorBody;
  operations : list string;
  gate_qubits : option (list (list nat));
}.

(** The values of the dict returned by [NoiseModel.to_dict()]: the list of
    errors under ["errors"], lists of names under any other key. *)
Inductive DictValue : Type :=
  | ErrorList (es : list ErrorEvent)
  | NameList (ns : list string).

Record NoiseModel : Type := mkNoiseModel { to_dict : gmap string DictValue }.

(** [value == []] *)
Definition is_empty_list (v : DictValue) : bool :=
  match v with
  | ErrorList [] | NameList [] => true
  | _ => false
  end.

(** [e["probabilities"][0]]: a float for a quantum error, a matrix row for a
    readout error. *)
Inductive PyNum : Type :=
  | PyFloat (x : Q)
  | PyList (row : list Q).

Record GenericQErrors : Type := mkGenericQErrors {
  GenericOneQubitQErrors : list (nat * list (Instructions * Probabilities));
  GenericTwoQubitQErrors : list ((nat * nat) * list (Instructions * Probabilities));
}.

Record NoiseModelCharacterisation : Type := mkNoiseModelCharacterisation {
  architecture : Architecture;
  node_errors : option (gmap Node (gmap OpType Q));
  edge_errors : option (gmap (Node * Node) (gmap OpType Q));
  readout_errors : option (gmap Node (list (list Q)));
  averaged_node_errors : option (gmap Node Q);
  averaged_edge_errors : option (gmap (Node * Node) Q);
  averaged_readout_errors : option (gmap Node Q);
  generic_q_errors : option GenericQErrors;
}.

(** The local variables of [_process_noise_model] that the loop over the
    errors updates. *)
Record LoopState : Type := mkLoopState {
  st_node_errors : gmap Node (gmap OpType Q);
  st_link_errors : gmap (Node * Node) (gmap OpType Q);
  st_readout_errors : gmap Node (list (list Q));
  st_generic_single_qerrors_dict : gmap nat (list (Instructions * Probabilities));
  st_generic_2q_qerrors_dict : gmap (nat * nat) (list (Instructions * Probabilities));
  st_qubits_set : gset nat;
  st_qubits_with_link_errors : gset nat;
  st_coupling_map : list (nat * nat);
}.

Definition init_state : LoopState :=
  mkLoopState ∅ ∅ ∅ ∅ ∅ ∅ ∅ [].

(** [d[k].update({o: x})] on a [defaultdict(dict)]. *)
Definition dd_update `{Countable K} (d : gmap K (gmap OpType Q)) (k : K)
    (o : OpType) (x : Q) : gmap K (gmap OpType Q) :=
  <[k := <[o := x]> (default ∅ (d !! k))]> d.

(** [d[k].append(x)] on a [defaultdict(list)]. *)
Definition dd_append `{Countable K} {A} (d : gmap K (list A)) (k : K) (x : A)
    : gmap K (list A) :=
  <[k := default [] (d !! k) ++ [x]]> d.

(** [error["probabilities"]] *)
Definition body_probabilities (b : ErrorBody) : Probabilities :=
  match b with
  | qerror _ ps => QProbs ps
  | roerror m => ROProbs m
  | other_type _ p => p
  end.

(** [error["type"] == "qerror" or error["type"] == "roerror"] *)
Definition is_qerror_or_roerror (e : ErrorEvent) : bool :=
  match body e with
  | qerror _ _ | roerror _ => true
  | other_type _ _ => false
  end.

(** [error["instructions"]] *)
Definition body_instructions (b : ErrorBody) : result Instructions :=
  match b with
  | qerror i _ => Ok i
  | _ => Raise KeyError
  end.

(** [probabilities[0]] *)
Definition probs_head (p : Probabilities) : result PyNum :=
  match p with
  | QProbs ps => PyFloat <$> list_getitem ps 0
  | ROProbs m => PyList <$> list_getitem m 0
  end.

(** [float(1 - gate_fid)]: a [TypeError] when [gate_fid] is a list. *)
Definition one_minus (gate_fid : PyNum) : result Q :=
  match gate_fid with
  | PyFloat f => Ok (1 - f)%Q
  | PyList _ => Raise TypeError
  end.

(** [float(1 - gate_fid**2)] *)
Definition one_minus_square (gate_fid : PyNum) : result Q :=
  match gate_fid with
  | PyFloat f => Ok (1 - f ^ 2)%Q
  | PyList _ => Raise TypeError
  end.

Definition msg_multiple_gates : string := "Error applies to multiple gates.".
Definition msg_all_qubit : string :=
  "Please define NoiseModel without using the add_all_qubit_quantum_error() or add_all_qubit_readout_error() method.".
Definition msg_error_type : string := "Error type not 'qerror' or 'roerror'.".

Section characterisation.

(** The table [_gate_str_2_optype] of [qiskit_convert], from Qiskit gate names
    to pytket operation types; looking up a name that is not a key raises
    [KeyError]. *)
Variable _gate_str_2_optype : string → option OpType.

Definition gate_optype (name : string) : result OpType :=
  match _gate_str_2_optype name with
  | Some o => Ok o
  | None => Raise KeyError
  end.

(** The body of the loop [for error in errors] of [_process_noise_model]. *)
Definition process_error (error : ErrorEvent) (st : LoopState) : result LoopState :=
  let name := operations error in
  if decide (1 < length name) then Raise (RuntimeWarning msg_multiple_gates) else
  match gate_qubits error with
  | None => Raise (RuntimeWarning msg_all_qubit)
  | Some gate_qubits =>
    name ← list_getitem name 0;
    qubits ← list_getitem gate_qubits 0;
    let probabilities := body_probabilities (body error) in
    gate_fid ← probs_head probabilities;
    match qubits with
    | [q] =>
      optype ← gate_optype name;
      let qubits_set := {[q]} ∪ st_qubits_set st in
      match body error with
      | qerror instructions _ =>
        x ← one_minus gate_fid;
        Ok (mkLoopState
              (dd_update (st_node_errors st) q optype x)
              (st_link_errors st)
              (st_readout_errors st)
              (dd_append (st_generic_single_qerrors_dict st) q
                 (instructions, probabilities))
              (st_generic_2q_qerrors_dict st)
              qubits_set
              (st_qubits_with_link_errors st)
              (st_coupling_map st))
      | roerror m =>
        Ok (mkLoopState
              (st_node_errors st)
              (st_link_errors st)
              (<[q := m]> (st_readout_errors st))
              (st_generic_single_qerrors_dict st)
              (st_generic_2q_qerrors_dict st)
              qubits_set
              (st_qubits_with_link_errors st)
              (st_coupling_map st))
      | other_type _ _ => Raise (RuntimeWarning msg_error_type)
      end
    | [q0; q1] =>
      optype ← gate_optype name;
      x ← one_minus gate_fid;
      let link_errors := dd_update (st_link_errors st) (q0, q1) optype x in
      let qubits_with_link_errors :=
        {[q1]} ∪ ({[q0]} ∪ st_qubits_with_link_errors st) in
      y ← one_minus_square gate_fid;
      let link_errors := dd_update link_errors (q1, q0) optype y in
      instructions ← body_instructions (body error);
      Ok (mkLoopState
            (st_node_errors st)
            link_errors
            (st_readout_errors st)
            (st_generic_single_qerrors_dict st)
            (dd_append (st_generic_2q_qerrors_dict st) (q0, q1)
               (instructions, probabilities))
            (st_qubits_set st)
            qubits_with_link_errors
            (st_coupling_map st ++ [(q0, q1)]))
    | _ => Ok st
    end
  end.

(** [for error in errors: ...] *)
Fixpoint process_errors (errors : list ErrorEvent) (st : LoopState) : result LoopState :=
  match errors with
  | [] => Ok st
  | error :: errors => st' ← process_error error st; process_errors errors st'
  end.


(** [itertools.permutations(l, 2)]: every element paired with every element at
    another position, in the order of the positions. *)
Fixpoint picks {A} (l : list A) : list (A * list A) :=
  match l with
  | [] => []
  | x :: r => (x, r) :: map (λ yr, (yr.1, x :: yr.2)) (picks r)
  end.

Definition permutations2 {A} (l : list A) : list (A * A) :=
  flat_map (λ xr, map (λ y, (xr.1, y)) xr.2) (picks l).

(** The two nested loops over [free_qubits] and [qubits_with_link_errors]. *)
Definition free_link_pairs (free_qubits link_qubits : list nat) : list (nat * nat) :=
  flat_map (λ q, flat_map (λ lq, [(q, lq); (lq, q)]) link_qubits) free_qubits.

(** The coupling list as it stands after the completion for free qubits. *)
Definition complete_coupling_map (st : LoopState) : list (nat * nat) :=
  let free_qubits := st_qubits_set st ∖ st_qubits_with_link_errors st in
  st_coupling_map st
    ++ free_link_pairs (elements free_qubits) (elements (st_qubits_with_link_errors st))
    ++ permutations2 (elements free_qubits).

(** [sum(v.values()) / len(v)] *)
Definition py_sum (l : list Q) : Q := foldl Qplus 0%Q l.

Definition average (v : gmap OpType Q) : result Q :=
  if decide (size v = 0) then Raise ZeroDivisionError
  else Ok (py_sum (map_to_list v).*2 / inject_Z (Z.of_nat (size v)))%Q.

(** [(v[0][1] + v[1][0]) / 2.0] *)
Definition readout_average (v : list (list Q)) : result Q :=
  r0 ← list_getitem v 0;
  a ← list_getitem r0 1;
  r1 ← list_getitem v 1;
  b ← list_getitem r1 0;
  Ok ((a + b) / 2)%Q.

(** A dict comprehension [{k: f(v) for k, v in d.items()}] whose body may
    raise: the first exception met aborts it. *)
Fixpoint first_raise {A B} (f : A → result B) (l : list A) : option exn :=
  match l with
  | [] => None
  | a :: l => match f a with Raise e => Some e | Ok _ => first_raise f l end
  end.

Definition result_to_option {A} (r : result A) : option A :=
  match r with Ok a => Some a | Raise _ => None end.

Definition dict_comprehension `{Countable K} {A B} (f : A → result B)
    (d : gmap K A) : result (gmap K B) :=
  match first_raise f (map_to_list d).*2 with
  | Some e => Raise e
  | None => Ok (omap (λ a, result_to_option (f a)) d)
  end.

(** Reading the value under ["errors"] as a list of error dicts: indexing a
    name with ["type"] is a [TypeError]. *)
Definition error_dicts (v : DictValue) : result (list ErrorEvent) :=
  match v with
  | ErrorList es => Ok es
  | NameList [] => Ok []
  | NameList (_ :: _) => Raise TypeError
  end.

Definition _process_noise_model (noise_model : NoiseModel) (gate_set : gset OpType)
    : result NoiseModelCharacterisation :=
  if decide (Op.CX ∈ gate_set) then
    all_errors ← getitem (to_dict noise_model) "errors";
    match error_dicts all_errors with
    | Raise e => Raise e
    | Ok all_errors =>
      let errors := filter (λ e, is_qerror_or_roerror e = true) all_errors in
      st ← process_errors errors init_state;
      let coupling_map := complete_coupling_map st in
      let generic_q_errors :=
        mkGenericQErrors
          (map_to_list (st_generic_single_qerrors_dict st))
          (map_to_list (st_generic_2q_qerrors_dict st)) in
      averaged_node_errors ← dict_comprehension average (st_node_errors st);
      averaged_link_errors ← dict_comprehension average (st_link_errors st);
      averaged_readout_errors ← dict_comprehension readout_average (st_readout_errors st);
      Ok (mkNoiseModelCharacterisation
            (mkArchitecture coupling_map)
            (Some (st_node_errors st))
            (Some (st_link_errors st))
            (Some (st_readout_errors st))
            (Some averaged_node_errors)
            (Some averaged_link_errors)
            (Some averaged_readout_errors)
            (Some generic_q_errors))
    end
  else Raise AssertionError.

(** An object of class [NoiseModel] is truthy: the class defines neither
    [__bool__] nor [__len__]. *)
Definition _map_trivial_noise_model_to_none (noise_model : option NoiseModel)
    : option NoiseModel :=
  match noise_model with
  | Some nm =>
    if decide (map_Forall (λ _ value, is_empty_list value = true) (to_dict nm))
    then None else Some nm
  | None => None
  end.

Definition _get_characterisation_of_noise_model (noise_model : option NoiseModel)
    (gate_set : gset OpType) : result NoiseModelCharacterisation :=
  match noise_model with
  | None =>
    Ok (mkNoiseModelCharacterisation (mkArchitecture [])
          None None None None None None None)
  | Some nm => _process_noise_model nm gate_set
  end.

(** *** What the events of a list say, read off the list itself *)

(** [error["gate_qubits"][0]] *)
Definition targets (e : ErrorEvent) : option (list nat) :=
  gate_qubits e ≫= head.


(** Qubits of the single-qubit events, qubits of the two-qubit events, the
    target pairs of the two-qubit events in order, and all target qubits. *)
Definition single_qubits (es : list ErrorEvent) : gset nat :=
  ⋃ (map (λ e, match targets e with Some [q] => {[q]} | _ => ∅ end) es).

Definition link_qubits (es : list ErrorEvent) : gset nat :=
  ⋃ (map (λ e, match targets e with Some [q0; q1] => {[q0; q1]} | _ => ∅ end) es).

Definition link_pairs (es : list ErrorEvent) : list (nat * nat) :=
  omap (λ e, match targets e with Some [q0; q1] => Some (q0, q1) | _ => None end) es.

Definition event_qubits (es : list ErrorEvent) : gset nat :=
  ⋃ (map (λ e, list_to_set (default [] (targets e))) es).



(** [d[p][o]] when both keys are present. *)
Definition entry `{Countable K} (d : gmap K (gmap OpType Q)) (p : K) (o : OpType)
    : option Q :=
  d !! p ≫= (.!! o).

(** An error as Qiskit writes it for a gate known to the table: a quantum
    error on one or two qubits with at least one probability, or a readout
    error on one qubit with a 2×2 assignment matrix. *)
Definition well_formed (e : ErrorEvent) : Prop :=
  (∃ name, operations e = [name] ∧ is_Some (_gate_str_2_optype name)) ∧
  match body e, targets e with
  | qerror _ (_ :: _), Some [_] => True
  | qerror _ (_ :: _), Some [_; _] => True
  | roerror [[_; _]; [_; _]], Some [_] => True
  | _, _ => False
  end.

(** What the loop keeps true of the maps that are averaged afterwards. *)
Definition averageable (st : LoopState) : Prop :=
  map_Forall (λ _ v, v ≠ ∅) (st_node_errors st) ∧
  map_Forall (λ _ v, v ≠ ∅) (st_link_errors st) ∧
  map_Forall (λ _ m, is_Ok (readout_average m)) (st_readout_errors st).

(** The errors that [_process_noise_model] loops over. *)
Definition errors_of (noise_model : NoiseModel) : list ErrorEvent :=
  match to_dict noise_model !! "errors" with
  | Some (ErrorList es) => filter (λ e, is_qerror_or_roerror e = true) es
  | _ => []
  end.

(** The first probability of a quantum error. *)
Definition first_probability (e : ErrorEvent) : option Q :=
  match body e with
  | qerror _ (f :: _) => Some f
  | _ => None
  end.

(** What the quantum errors on the qubits [qs] add to a generic error log, in
    the order of the events. *)
Definition log_of (qs : list nat) (es : list ErrorEvent)
    : list (Instructions * Probabilities) :=
  omap (λ e, if decide (targets e = Some qs)
             then match body e with
                  | qerror instructions ps => Some (instructions, QProbs ps)
                  | _ => None
                  end
             else None) es.

(** What the loop keeps true of a pair whose reverse no error targets. *)
Definition reverse_not_better (st : LoopState) (q0 q1 : nat) : Prop :=
  ∀ k a, entry (st_link_errors st) (q0, q1) k = Some a →
    ∃ b, entry (st_link_errors st) (q1, q0) k = Some b ∧
         (a <= b)%Q ∧ (0 <= a)%Q ∧ (b <= 1)%Q.

(** A log holds, for its key, what the loop found before followed by the
    quantum errors of the list on that key. *)
Definition log_extends {K} `{Countable K} (key : K → list nat)
    (es : list ErrorEvent) (g g' : gmap K (list (Instructions * Probabilities)))
    : Prop :=
  ∀ k, g' !! k = match log_of (key k) es with
                 | [] => g !! k
                 | log => Some (default [] (g !! k) ++ log)
                 end.

Definition pair_key (p : nat * nat) : list nat := [p.1; p.2].
Definition qubit_key (q : nat) : list nat := [q].

(** Qubits with a single-qubit quantum error, and with a single-qubit readout
    error. *)
Definition node_qubits (es : list ErrorEvent) : gset nat :=
  ⋃ (map (λ e, match targets e, body e with
               | Some [q], qerror _ _ => {[q]}
               | _, _ => ∅
               end) es).

Definition readout_qubits (es : list ErrorEvent) : gset nat :=
  ⋃ (map (λ e, match targets e, body e with
               | Some [q], roerror _ => {[q]}
               | _, _ => ∅
               end) es).

End characterisation.

End Noise.

(** ** The Aer backends *)

Module Aer.

(** *** Compilation passes

    The passes are those of the pytket library; the backend only selects and
    orders them. *)

(** [_gen_lightsabre_transformation(arch)] of [ibm_utils]: the routing and
    placement transformation built from an architecture. *)
Inductive Transformation : Type :=
  | lightsabre_transformation (arch : Architecture).

Inductive BasePass : Type :=
  | DecomposeBoxes
  | AutoRebase (gateset : gset OpType)
  | CustomPass (transform : Transformation) (label : string)
  | SynthesiseTket
  | FullPeepholeOptimise
  | CliffordSimp (allow_swaps : bool)
  | RemoveBarriers
  | GreedyPauliSimp (thread_timeout : Z) (only_reduce : bool) (trials : nat)
  | SequencePass (pass_list : list BasePass).

(** The routing and placement stage: the only [CustomPass] of the policy. *)
Definition is_routing (p : BasePass) : Prop :=
  ∃ transform label, p = CustomPass transform label.

Definition routing_of (arch : Architecture) : BasePass :=
  CustomPass (lightsabre_transformation arch) "lightsabrepass".

Inductive Predicate : Type :=
  | NoSymbolsPredicate
  | GateSetPredicate (gate_set : gset OpType)
  | NoClassicalControlPredicate
  | DefaultRegisterPredicate
  | NoBarriersPredicate
  | NoFastFeedforwardPredicate
  | ConnectivityPredicate (arch : ArchitectureSpec).

(** *** The backend object *)

Record BackendInfo : Type := mkBackendInfo {
  name : string;
  device_name : string;
  architecture : ArchitectureSpec;
  gate_set : gset OpType;
  supports_midcircuit_measurement : bool;
  supports_reset : bool;
  supports_fast_feedforward : bool;
  all_node_gate_errors : option (gmap Node (gmap OpType Q));
  all_edge_gate_errors : option (gmap (Node * Node) (gmap OpType Q));
  all_readout_errors : option (gmap Node (list (list Q)));
  averaged_node_gate_errors : option (gmap Node Q);
  averaged_edge_gate_errors : option (gmap (Node * Node) Q);
  averaged_readout_errors : option (gmap Node Q);
  misc : gmap string (option Noise.GenericQErrors);
}.

(** A simulator of [Aer.backends()], as far as the backend reads it. *)
Record QiskitAerBackend : Type := mkQiskitAerBackend {
  qb_name : string;
  basis_gates : list string;
  method : string;
}.

(** The external engine behind a backend object: how many jobs were submitted
    to it and how many times a job's [result()] was called. *)
Record Engine : Type := mkEngine {
  simulator : QiskitAerBackend;
  jobs_submitted : nat;
  result_calls : nat;
}.

(** *** Qubits and Pauli operators *)

Record Qubit : Type := mkQubit { reg_name : string; index : list nat }.

Global Instance Qubit_eq_dec : EqDecision Qubit.
Proof. solve_decision. Defined.
Global Instance Qubit_countable : Countable Qubit.
Proof.
  apply (inj_countable' (λ q, (reg_name q, index q)) (λ p, mkQubit p.1 p.2)).
  by intros [].
Defined.

Inductive Pauli : Type := Pauli_I | Pauli_X | Pauli_Y | Pauli_Z.

Global Instance Pauli_eq_dec : EqDecision Pauli.
Proof. solve_decision. Defined.

(** [p.name] *)
Definition Pauli_name (p : Pauli) : string :=
  match p with Pauli_I => "I" | Pauli_X => "X" | Pauli_Y => "Y" | Pauli_Z => "Z" end.


(** [QubitPauliString.map] *)
Definition QubitPauliString : Type := gmap Qubit Pauli.

Definition _default_q_index (q : Qubit) : result nat :=
  match index q with
  | [i] => if decide (reg_name q = "q") then Ok i
           else Raise (ValueError "Non-default qubit register")
  | _ => Raise (ValueError "Non-default qubit register")
  end.

(** The loop of [_sparse_to_zx_tup] over the items of the Pauli string; writing
    a numpy array out of range raises [IndexError]. *)
Fixpoint zx_items (items : list (Qubit * Pauli)) (z x : list bool)
    : result (list bool * list bool) :=
  match items with
  | [] => Ok (z, x)
  | (q, p) :: items =>
    i ← _default_q_index q;
    if decide (i < length z) then
      zx_items items
        (<[i := bool_decide (p = Pauli_Z ∨ p = Pauli_Y)]> z)
        (<[i := bool_decide (p = Pauli_X ∨ p = Pauli_Y)]> x)
    else Raise IndexError
  end.

Definition _sparse_to_zx_tup (pauli : QubitPauliString) (n_qubits : nat)
    : result (list bool * list bool) :=
  zx_items (map_to_list pauli) (replicate n_qubits false) (replicate n_qubits false).

Section backend.

(** Circuits, lowered circuits, results and numbers belong to pytket, Qiskit
    and Python. *)
Context {Circuit QuantumCircuit BackendResult CrosstalkParams Complex : Type}.

(** [QubitPauliOperator._dict]: the terms with their coefficients. *)
Definition QubitPauliOperator : Type := list (QubitPauliString * Complex).

(** A Qiskit operator: [qk_Pauli((z, x))] or [SparsePauliOp(strings, coeffs)]. *)
Inductive Hamiltonian : Type :=
  | qk_Pauli (z x : list bool)
  | SparsePauliOp (strings : list string) (coeffs : list Complex).

Definition _qubitpauliop_to_sparsepauliop (operator : QubitPauliOperator)
    (n_qubits : nat) : Hamiltonian :=
  let term_string (termmap : QubitPauliString) : string :=
    foldr (λ i s, Pauli_name (default Pauli_I (termmap !! mkQubit "q" [i])) +:+ s) ""
      (reverse (seq 0 n_qubits)) in
  SparsePauliOp (map (λ tc, term_string tc.1) operator) (map snd operator).

(** An [AerJob]: its id, and the results that [result()] returns once they are
    converted: one per circuit of the job. *)
Record AerJob : Type := mkAerJob {
  job_id : string;
  backresults : list BackendResult;
}.

(** A cache entry is a dict with the keys ["job"] and ["result"], either of
    which may be missing. *)
Record CacheEntry : Type := mkCacheEntry {
  entry_job : option AerJob;
  entry_result : option BackendResult;
}.

Record AerBaseBackend : Type := mkAerBaseBackend {
  _qiskit_backend : Engine;
  _backend_info : BackendInfo;
  _memory : bool;
  _required_predicates : list Predicate;
  _noise_model : option Noise.NoiseModel;
  _has_arch : bool;
  _needs_transpile : bool;
  _crosstalk_params : option CrosstalkParams;
  _supports_shots : bool;
  _supports_counts : bool;
  _supports_state : bool;
  _supports_unitary : bool;
  _supports_density_matrix : bool;
  _supports_expectation : bool;
  _cache : gmap ResultHandle CacheEntry;
}.

(** A method of the backend: it may update the object, and either returns or
    raises. *)
Definition method_of (A : Type) : Type := AerBaseBackend → result A * AerBaseBackend.

Definition set_cache (c : gmap ResultHandle CacheEntry) (b : AerBaseBackend)
    : AerBaseBackend :=
  mkAerBaseBackend (_qiskit_backend b) (_backend_info b) (_memory b)
    (_required_predicates b) (_noise_model b) (_has_arch b) (_needs_transpile b)
    (_crosstalk_params b) (_supports_shots b) (_supports_counts b)
    (_supports_state b) (_supports_unitary b) (_supports_density_matrix b)
    (_supports_expectation b) c.

Definition set_engine (e : Engine) (b : AerBaseBackend) : AerBaseBackend :=
  mkAerBaseBackend e (_backend_info b) (_memory b)
    (_required_predicates b) (_noise_model b) (_has_arch b) (_needs_transpile b)
    (_crosstalk_params b) (_supports_shots b) (_supports_counts b)
    (_supports_state b) (_supports_unitary b) (_supports_density_matrix b)
    (_supports_expectation b) (_cache b).

(** *** The external collaborators *)

(** [_gate_str_2_optype] of [qiskit_convert]. *)
Variable _gate_str_2_optype : string → option OpType.

(** [Aer.backends()] *)
Variable Aer_backends : list QiskitAerBackend.

(** The id that the engine gives to the job it receives after [n] others. *)
Variable new_job_id : nat → string.

(** The converted results of a job: what
    [qiskit_result_to_backendresult(job.result(), ...)] yields for the lowered
    circuits, shots, memory flag, seed and noise model of the run. *)
Variable simulate :
  list QuantumCircuit → option nat → bool → option Z → option Noise.NoiseModel →
  list BackendResult.

Variable n_qubits_of : Circuit → nat.

(** [prepare_circuit(tkc, allow_classical=False)] followed by
    [json.dumps(ppcirc.to_dict())]. *)
Variable prepare_circuit : Circuit → Circuit * string.

(** [tk_to_qiskit(c0, replace_implicit_swaps)] followed by the [save_...]
    instruction that the backend variant appends. *)
Variable tk_to_qiskit : Circuit → bool → QuantumCircuit.
Variable save_state save_density_matrix save_unitary : QuantumCircuit → QuantumCircuit.
Variable transpile : list QuantumCircuit → QiskitAerBackend → list QuantumCircuit.

(** [NoisyCircuitBuilder(c, params)]: [build()] then [get_circuit()]. *)
Variable noisy_circuit : CrosstalkParams → Circuit → Circuit.
Variable crosstalk_noise_model : CrosstalkParams → Noise.NoiseModel.

(** Whether a circuit satisfies the required predicates. *)
Variable valid : list Predicate → Circuit → bool.

(** [circuit.qubits] *)
Variable qubits_of : Circuit → list Qubit.

(** [qc.save_expectation_value(hamiltonian, qc.qubits, "snap")], and the value
    that the engine reports under ["snap"] for the circuit. *)
Variable save_expectation_value : QuantumCircuit → Hamiltonian → QuantumCircuit.
Variable snapshot : QuantumCircuit → Complex.

(** *** Construction *)

(** [qiskit_aer_backend(backend_name)]; the warning on several candidates is
    not modelled. *)
Definition qiskit_aer_backend (backend_name : string) : result QiskitAerBackend :=
  let candidates := filter (λ b, qb_name b = backend_name) Aer_backends in
  match candidates with
  | [] => Raise (ValueError "No backend with the given name is available.")
  | b :: _ => Ok b
  end.

Definition _tket_gate_set_from_qiskit_backend (qiskit_aer_backend : QiskitAerBackend)
    : gset OpType :=
  let gate_set : gset OpType :=
    list_to_set (omap _gate_str_2_optype (basis_gates qiskit_aer_backend)) in
  let gate_set := {[Op.Barrier]} ∪ gate_set in
  let gate_set :=
    if decide ("unitary" ∈ basis_gates qiskit_aer_backend)
    then {[Op.Unitary1qBox; Op.Unitary2qBox; Op.Unitary3qBox]} ∪ gate_set
    else gate_set in
  {[Op.Reset; Op.Measure; Op.Conditional; Op.TK1]} ∪ gate_set.

Definition _allowed_special_gates : gset OpType :=
  {[Op.Measure; Op.Barrier; Op.Reset; Op.RangePredicate]}.

(** [bool(architecture)]: the class [Architecture] defines neither [__bool__]
    nor [__len__], so an architecture object is truthy. *)
Definition architecture_bool (a : Architecture) : bool := true.

(** [bool(l)] for a list. *)
Definition list_bool {A} (l : list A) : bool :=
  match l with [] => false | _ :: _ => true end.

Definition set_method (m : string) (qb : QiskitAerBackend) : QiskitAerBackend :=
  mkQiskitAerBackend (qb_name qb) (basis_gates qb) m.

(** The two calls by which a constructor characterises the noise model that
    it was given. *)
Definition characterise (noise_model : option Noise.NoiseModel)
    (gate_set : gset OpType) : result Noise.NoiseModelCharacterisation :=
  Noise._get_characterisation_of_noise_model _gate_str_2_optype
    (Noise._map_trivial_noise_model_to_none noise_model) gate_set.

(** The predicates that [AerBackend.__init__] requires, once the noise model,
    the backend info and [_has_arch] are set. *)
Definition AerBackend_required_predicates (crosstalk_params : option CrosstalkParams)
    (has_arch : bool) (backend_info : BackendInfo) : list Predicate :=
  [NoSymbolsPredicate; GateSetPredicate (gate_set backend_info)]
  ++ match crosstalk_params with
     | Some _ =>
       [NoClassicalControlPredicate; DefaultRegisterPredicate; NoBarriersPredicate]
     | None => []
     end
  ++ (if has_arch then [ConnectivityPredicate (architecture backend_info)] else []).

(** [AerBackend.__init__] *)
Definition AerBackend (noise_model : option Noise.NoiseModel)
    (simulation_method : string) (crosstalk_params : option CrosstalkParams)
    (n_qubits : nat) : result AerBaseBackend :=
  qb ← qiskit_aer_backend "aer_simulator";
  let qb := set_method simulation_method qb in
  let gates := _tket_gate_set_from_qiskit_backend qb ∪ _allowed_special_gates in
  match crosstalk_params with
  | Some params =>
    let noise_model := Some (crosstalk_noise_model params) in
    let backend_info :=
      mkBackendInfo "AerBackend" "aer_simulator" (Arch (mkArchitecture []))
        gates false false false None None None None None None ∅ in
    Ok (mkAerBaseBackend (mkEngine qb 0 0) backend_info true
          (AerBackend_required_predicates crosstalk_params false backend_info)
          noise_model false false crosstalk_params
          true true false false false true ∅)
  | None =>
    characterisation ← characterise noise_model gates;
    let noise_model := Noise._map_trivial_noise_model_to_none noise_model in
    let has_arch :=
      architecture_bool (Noise.architecture characterisation)
      && list_bool (nodes (Noise.architecture characterisation)) in
    let backend_info :=
      mkBackendInfo "AerBackend" "aer_simulator"
        (if has_arch then Arch (Noise.architecture characterisation)
         else FullyConnected n_qubits)
        gates true false true
        (Noise.node_errors characterisation)
        (Noise.edge_errors characterisation)
        (Noise.readout_errors characterisation)
        (Noise.averaged_node_errors characterisation)
        (Noise.averaged_edge_errors characterisation)
        (Noise.averaged_readout_errors characterisation)
        {["characterisation" := Noise.generic_q_errors characterisation]} in
    Ok (mkAerBaseBackend (mkEngine qb 0 0) backend_info true
          (AerBackend_required_predicates crosstalk_params has_arch backend_info)
          noise_model has_arch false crosstalk_params
          true true false false false true ∅)
  end.

(** [AerStateBackend.__init__] *)
Definition AerStateBackend (n_qubits : nat) : result AerBaseBackend :=
  qb ← qiskit_aer_backend "aer_simulator_statevector";
  let backend_info :=
    mkBackendInfo "AerStateBackend" "aer_simulator_statevector"
      (FullyConnected n_qubits) (_tket_gate_set_from_qiskit_backend qb)
      true true true None None None None None None
      {["characterisation" := None]} in
  Ok (mkAerBaseBackend (mkEngine qb 0 0) backend_info false
        [GateSetPredicate (gate_set backend_info)]
        None false false None
        false false true false false true ∅).

(** [AerUnitaryBackend.__init__] *)
Definition AerUnitaryBackend (n_qubits : nat) : result AerBaseBackend :=
  qb ← qiskit_aer_backend "aer_simulator_unitary";
  let backend_info :=
    mkBackendInfo "AerUnitaryBackend" "aer_simulator_unitary"
      (FullyConnected n_qubits) (_tket_gate_set_from_qiskit_backend qb)
      true false false None None None None None None
      {["characterisation" := None]} in
  Ok (mkAerBaseBackend (mkEngine qb 0 0) backend_info false
        [NoClassicalControlPredicate; NoFastFeedforwardPredicate;
         GateSetPredicate (gate_set backend_info)]
        None false true None
        false false false true false false ∅).

(** [AerDensityMatrixBackend.__init__] *)
Definition AerDensityMatrixBackend (noise_model : option Noise.NoiseModel)
    (n_qubits : nat) : result AerBaseBackend :=
  qb ← qiskit_aer_backend "aer_simulator_density_matrix";
  let gates := _tket_gate_set_from_qiskit_backend qb ∪ _allowed_special_gates in
  characterisation ← characterise noise_model gates;
  let noise_model := Noise._map_trivial_noise_model_to_none noise_model in
  let has_arch :=
    architecture_bool (Noise.architecture characterisation)
    && list_bool (nodes (Noise.architecture characterisation)) in
  let backend_info :=
    mkBackendInfo "AerDensityMatrixBackend" "aer_simulator_density_matrix"
      (if negb has_arch then FullyConnected n_qubits
       else Arch (Noise.architecture characterisation))
      (_tket_gate_set_from_qiskit_backend qb) true true true
      (Noise.node_errors characterisation)
      (Noise.edge_errors characterisation)
      (Noise.readout_errors characterisation)
      (Noise.averaged_node_errors characterisation)
      (Noise.averaged_edge_errors characterisation)
      (Noise.averaged_readout_errors characterisation)
      {["characterisation" := Noise.generic_q_errors characterisation]} in
  Ok (mkAerBaseBackend (mkEngine qb 0 0) backend_info false
        [GateSetPredicate (gate_set backend_info)]
        noise_model has_arch true None
        false false false false true true ∅).

(** *** The default compilation pass *)

Definition rebase_pass (self : AerBaseBackend) : BasePass :=
  AutoRebase (gate_set (_backend_info self)).

Definition _arch_dependent_default_compilation_pass (self : AerBaseBackend)
    (arch : Architecture) (optimisation_level : Z) (timeout : Z) : result BasePass :=
  if decide (0 ≤ optimisation_level < 4)%Z then
    let arch_specific_passes :=
      [AutoRebase {[Op.CX; Op.TK1]};
       CustomPass (lightsabre_transformation arch) "lightsabrepass"] in
    if decide (optimisation_level = 0)%Z then
      Ok (SequencePass
            ([DecomposeBoxes; rebase_pass self]
             ++ arch_specific_passes ++ [rebase_pass self]))
    else if decide (optimisation_level = 1)%Z then
      Ok (SequencePass
            ([DecomposeBoxes; SynthesiseTket]
             ++ arch_specific_passes ++ [SynthesiseTket]))
    else if decide (optimisation_level = 2)%Z then
      Ok (SequencePass
            ([DecomposeBoxes; FullPeepholeOptimise]
             ++ arch_specific_passes ++ [CliffordSimp false; SynthesiseTket]))
    else
      Ok (SequencePass
            ([DecomposeBoxes; RemoveBarriers;
              AutoRebase {[Op.CX; Op.H; Op.Rz]};
              GreedyPauliSimp timeout true 10]
             ++ arch_specific_passes ++ [SynthesiseTket]))
  else Raise AssertionError.

Definition _arch_independent_default_compilation_pass (self : AerBaseBackend)
    (optimisation_level : Z) (timeout : Z) : result BasePass :=
  if decide (0 ≤ optimisation_level < 4)%Z then
    if decide (optimisation_level = 0)%Z then
      Ok (SequencePass [DecomposeBoxes; rebase_pass self])
    else if decide (optimisation_level = 1)%Z then
      Ok (SequencePass [DecomposeBoxes; SynthesiseTket])
    else if decide (optimisation_level = 2)%Z then
      Ok (SequencePass [DecomposeBoxes; FullPeepholeOptimise])
    else
      Ok (SequencePass
            [DecomposeBoxes; RemoveBarriers;
             AutoRebase {[Op.CX; Op.H; Op.Rz]};
             GreedyPauliSimp timeout true 10])
  else Raise AssertionError.

(** [arch.coupling] is read only when [_has_arch] holds; [FullyConnected] has
    no such attribute. *)
Definition default_compilation_pass (self : AerBaseBackend)
    (optimisation_level : Z) (timeout : Z) : result BasePass :=
  let arch := architecture (_backend_info self) in
  if _has_arch self then
    match arch with
    | Arch a =>
      if list_bool (coupling a)
      then _arch_dependent_default_compilation_pass self a optimisation_level timeout
      else _arch_independent_default_compilation_pass self optimisation_level timeout
    | FullyConnected _ => Raise AttributeError
    end
  else _arch_independent_default_compilation_pass self optimisation_level timeout.

(** *** Submission *)

(** [n_shots]: [None], an [int], or a sequence of optional ints. *)
Inductive NShots : Type :=
  | NShots_all (n : option nat)
  | NShots_seq (l : list (option nat)).

(** [Backend._get_n_shots_as_list(n_shots, n_circuits, optional=True)] of the
    pytket library. *)
Definition _get_n_shots_as_list (n_shots : NShots) (n_circuits : nat)
    : result (list (option nat)) :=
  let n_shots_list :=
    match n_shots with
    | NShots_all n => replicate n_circuits n
    | NShots_seq l => l
    end in
  if decide (length n_shots_list = n_circuits) then Ok n_shots_list
  else Raise (ValueError "The length of n_shots and circuits must match").

(** Modelled from the spec: [_batch_circuits] of [ibm_utils], which is not part
    of this file.  Circuits with the same shot count form one group, in
    submission order; the second component gives, group by group, the
    positions that the circuits had in the input. *)
Definition _batch_circuits (circuits : list Circuit) (n_shots : list (option nat))
    : list (option nat * list Circuit) * list (list nat) :=
  let batch_order :=
    map (λ n, filter (λ i, n_shots !! i = Some n) (seq 0 (length circuits)))
      (remove_dups n_shots) in
  (zip (remove_dups n_shots) (map (omap (circuits !!.)) batch_order), batch_order).

(** [self._check_all_circuits(circuits)] of the pytket library. *)
Definition _check_all_circuits (self : AerBaseBackend) (circuits : list Circuit)
    : result () :=
  if decide (Forall (λ c, valid (_required_predicates self) c = true) circuits)
  then Ok () else Raise CircuitNotValidError.

(** The body of [for tkc in batch]: the lowered circuit, its qubit count and
    the serialised post-processing circuit ([json.dumps(None)] is ["null"]). *)
Definition lower (self : AerBaseBackend) (postprocess replace_implicit_swaps : bool)
    (tkc : Circuit) : QuantumCircuit * nat * string :=
  let '(c0, ppcirc_str) := if postprocess then prepare_circuit tkc else (tkc, "null") in
  let qc := tk_to_qiskit c0 replace_implicit_swaps in
  let qc :=
    if _supports_state self then save_state qc
    else if _supports_density_matrix self then save_density_matrix qc
    else if _supports_unitary self then save_unitary qc
    else qc in
  (qc, n_qubits_of c0, ppcirc_str).

(** [self._qiskit_backend.run(qcs, ...)]: the engine takes one more job. *)
Definition run (self : AerBaseBackend) (qcs : list QuantumCircuit)
    (shots : option nat) (seed : option Z) : AerJob * AerBaseBackend :=
  let engine := _qiskit_backend self in
  (mkAerJob (new_job_id (jobs_submitted engine))
     (simulate qcs shots (_memory self) seed (_noise_model self)),
   set_engine (mkEngine (simulator engine) (S (jobs_submitted engine))
                 (result_calls engine)) self).

(** [seq[i] = x]: [IndexError] when out of range. *)
Definition list_setitem {A} (l : list A) (i : nat) (x : A) : result (list A) :=
  if decide (i < length l) then Ok (<[i := x]> l) else Raise IndexError.

(** [for i, ind in enumerate(indices): ...], from position [i] on. *)
Fixpoint mint_handles (job : AerJob) (tkc_qubits_count : list nat)
    (ppcirc_strs : list string) (i : nat) (indices : list nat)
    (handle_list : list (option ResultHandle))
    (cache : gmap ResultHandle CacheEntry)
    : result (list (option ResultHandle)) * gmap ResultHandle CacheEntry :=
  match indices with
  | [] => (Ok handle_list, cache)
  | ind :: indices =>
    match list_getitem tkc_qubits_count i, list_getitem ppcirc_strs i with
    | Ok n, Ok ppc =>
      let handle : ResultHandle := (job_id job, i, n, ppc) in
      match list_setitem handle_list ind (Some handle) with
      | Ok handle_list =>
        mint_handles job tkc_qubits_count ppcirc_strs (S i) indices handle_list
          (<[handle := mkCacheEntry (Some job) None]> cache)
      | Raise e => (Raise e, cache)
      end
    | Raise e, _ | _, Raise e => (Raise e, cache)
    end
  end.

(** [seed += 1] when the seed is an int. *)
Definition next_seed (seed : option Z) : option Z := (λ s, s + 1)%Z <$> seed.

(** [for (n_shots, batch), indices in zip(circuit_batches, batch_order): ...] *)
Fixpoint submit_batches (postprocess replace_implicit_swaps : bool)
    (batches : list ((option nat * list Circuit) * list nat)) (seed : option Z)
    (handle_list : list (option ResultHandle))
    : method_of (list (option ResultHandle)) :=
  λ self,
  match batches with
  | [] => (Ok handle_list, self)
  | ((n_shots, batch), indices) :: batches =>
    let lowered := map (lower self postprocess replace_implicit_swaps) batch in
    let qcs := lowered.*1.*1 in
    let tkc_qubits_count := lowered.*1.*2 in
    let ppcirc_strs := lowered.*2 in
    let qcs :=
      if _needs_transpile self
      then transpile qcs (simulator (_qiskit_backend self)) else qcs in
    let '(job, self) := run self qcs n_shots seed in
    let seed := next_seed seed in
    match mint_handles job tkc_qubits_count ppcirc_strs 0 indices handle_list
            (_cache self) with
    | (Ok handle_list, cache) =>
      submit_batches postprocess replace_implicit_swaps batches seed handle_list
        (set_cache cache self)
    | (Raise e, cache) => (Raise e, set_cache cache self)
    end
  end.

(** [process_circuits(circuits, n_shots, valid_check, postprocess=..., seed=...)] *)
Definition process_circuits (circuits : list Circuit) (n_shots : NShots)
    (valid_check postprocess : bool) (seed : option Z)
    : method_of (list (option ResultHandle)) :=
  λ self,
  match _get_n_shots_as_list n_shots (length circuits) with
  | Raise e => (Raise e, self)
  | Ok n_shots_list =>
    match (if valid_check then _check_all_circuits self circuits else Ok ()) with
    | Raise e => (Raise e, self)
    | Ok _ =>
      let circuits :=
        match _crosstalk_params self with
        | Some params => map (noisy_circuit params) circuits
        | None => circuits
        end in
      let handle_list := replicate (length circuits) None in
      let '(circuit_batches, batch_order) := _batch_circuits circuits n_shots_list in
      let replace_implicit_swaps := _supports_state self || _supports_unitary self in
      submit_batches postprocess replace_implicit_swaps
        (zip circuit_batches batch_order) seed handle_list self
    end
  end.

(** *** Results *)

(** Modelled from the spec: [Backend.get_result] of the pytket library, the
    method that [super().get_result(handle)] calls.  It returns the result
    stored in the cache entry of the handle and raises [CircuitNotRunError]
    when there is no entry or the entry has no result. *)
Definition super_get_result (handle : ResultHandle) : method_of BackendResult :=
  λ self,
  match _cache self !! handle ≫= entry_result with
  | Some r => (Ok r, self)
  | None => (Raise (CircuitNotRunError handle), self)
  end.

(** [job.result()]: one more call on the engine. *)
Definition job_result (job : AerJob) (self : AerBaseBackend)
    : list BackendResult * AerBaseBackend :=
  let engine := _qiskit_backend self in
  (backresults job,
   set_engine (mkEngine (simulator engine) (jobs_submitted engine)
                 (S (result_calls engine))) self).

(** [for circ_index, backres in enumerate(backresults):
       self._cache[ResultHandle(jobid, circ_index, qubit_n, ppc)]["result"] = backres],
    from position [circ_index] on.  The cache is a plain dict: a handle that is
    not a key raises [KeyError]. *)
Fixpoint store_results (jobid : string) (qubit_n : nat) (ppc : string)
    (circ_index : nat) (backresults : list BackendResult)
    (cache : gmap ResultHandle CacheEntry)
    : result () * gmap ResultHandle CacheEntry :=
  match backresults with
  | [] => (Ok (), cache)
  | backres :: backresults =>
    let h : ResultHandle := (jobid, circ_index, qubit_n, ppc) in
    match cache !! h with
    | Some e =>
      store_results jobid qubit_n ppc (S circ_index) backresults
        (<[h := mkCacheEntry (entry_job e) (Some backres)]> cache)
    | None => (Raise KeyError, cache)
    end
  end.

Definition get_result (handle : ResultHandle) : method_of BackendResult :=
  λ self,
  match super_get_result handle self with
  | (Ok r, self) => (Ok r, self)
  | (Raise (CircuitNotRunError _), self) =>
    let '(jobid, _, qubit_n, ppc) := handle in
    match _cache self !! handle ≫= entry_job with
    | None => (Raise (CircuitNotRunError handle), self)
    | Some job =>
      let '(backresults, self) := job_result job self in
      match store_results jobid qubit_n ppc 0 backresults (_cache self) with
      | (Ok _, cache) =>
        let self := set_cache cache self in
        match _cache self !! handle ≫= entry_result with
        | Some r => (Ok r, self)
        | None => (Raise KeyError, self)
        end
      | (Raise e, cache) => (Raise e, set_cache cache self)
      end
    end
  | (Raise e, self) => (Raise e, self)
  end.

(** *** Expectation values *)

(** [all(q_ind == i for q_ind, i in zip(q_indices, range(len(circ_qbs))))],
    where [q_indices] lazily applies [_default_q_index]: the first qubit that
    is out of place ends the test, a qubit outside the default register met
    before that raises. *)
Fixpoint contiguous_from (i : nat) (circ_qbs : list Qubit) : result bool :=
  match circ_qbs with
  | [] => Ok true
  | q :: circ_qbs =>
    q_ind ← _default_q_index q;
    if decide (q_ind = i) then contiguous_from (S i) circ_qbs else Ok false
  end.

Definition _snapshot_expectation_value (circuit : Circuit)
    (hamiltonian : Hamiltonian) (valid_check : bool) : method_of Complex :=
  λ self,
  match (if valid_check then _check_all_circuits self [circuit] else Ok ()) with
  | Raise e => (Raise e, self)
  | Ok _ =>
    match contiguous_from 0 (qubits_of circuit) with
    | Raise e => (Raise e, self)
    | Ok false =>
      (Raise (ValueError
         "Circuit must act on default register Qubits, contiguously from 0 onwards."),
       self)
    | Ok true =>
      let qc := save_expectation_value (tk_to_qiskit circuit false) hamiltonian in
      let engine := _qiskit_backend self in
      (Ok (snapshot qc),
       set_engine (mkEngine (simulator engine) (S (jobs_submitted engine))
                     (S (result_calls engine))) self)
    end
  end.

Definition msg_snapshot_noise : string :=
  "Snapshot based expectation value not supported with noise model. Use shots.".
Definition msg_no_expectation : string :=
  "Cannot get expectation value from this backend".

(** [if self._noise_model]: a noise model object is truthy. *)
Definition get_pauli_expectation_value (state_circuit : Circuit)
    (pauli : QubitPauliString) (valid_check : bool) : method_of Complex :=
  λ self,
  match _noise_model self with
  | Some _ => (Raise (RuntimeError msg_snapshot_noise), self)
  | None =>
    if negb (_supports_expectation self)
    then (Raise (NotImplementedError msg_no_expectation), self)
    else
      match _sparse_to_zx_tup pauli (n_qubits_of state_circuit) with
      | Raise e => (Raise e, self)
      | Ok zx =>
        _snapshot_expectation_value state_circuit (qk_Pauli zx.1 zx.2)
          valid_check self
      end
  end.

Definition get_operator_expectation_value (state_circuit : Circuit)
    (operator : QubitPauliOperator) (valid_check : bool) : method_of Complex :=
  λ self,
  match _noise_model self with
  | Some _ => (Raise (RuntimeError msg_snapshot_noise), self)
  | None =>
    if negb (_supports_expectation self)
    then (Raise (NotImplementedError msg_no_expectation), self)
    else
      let sparse_op :=
        _qubitpauliop_to_sparsepauliop operator (n_qubits_of state_circuit) in
      _snapshot_expectation_value state_circuit sparse_op valid_check self
  end.

(** *** Vocabulary of the properties *)

(** The entry of a handle that was submitted and not fetched yet. *)
Definition pending (cache : gmap ResultHandle CacheEntry) (h : ResultHandle) : Prop :=
  ∃ job, cache !! h = Some (mkCacheEntry (Some job) None).

(** The backend objects that the four constructors return. *)
Definition constructed (self : AerBaseBackend) : Prop :=
  (∃ noise_model simulation_method crosstalk_params n_qubits,
     AerBackend noise_model simulation_method crosstalk_params n_qubits = Ok self) ∨
  (∃ n_qubits, AerStateBackend n_qubits = Ok self) ∨
  (∃ n_qubits, AerUnitaryBackend n_qubits = Ok self) ∨
  (∃ noise_model n_qubits, AerDensityMatrixBackend noise_model n_qubits = Ok self).

(** *** Cancellation and status *)

(** [self._cache[handle]["job"]], outside any [try]. *)
Definition cache_job (handle : ResultHandle) (self : AerBaseBackend)
    : result AerJob :=
  match _cache self !! handle ≫= entry_job with
  | Some job => Ok job
  | None => Raise KeyError
  end.

(** [cancel(handle)]: what [job.cancel()] answers is the engine's; a refusal
    is logged as a warning, which is what the method is taken to return. *)
Definition cancel (job_cancel : AerJob → bool) (handle : ResultHandle)
    : method_of (list string) :=
  λ self,
  match cache_job handle self with
  | Raise e => (Raise e, self)
  | Ok job =>
    if job_cancel job then (Ok [], self)
    else (Ok ["Unable to cancel job " +:+ handle.1.1.1], self)
  end.

(** [circuit_status(handle)]: [_check_handle_type] holds of every
    [ResultHandle] of this type; [job.status()] is the engine's, the table
    [_STATUS_MAP] is that of [ibm_utils]; the result is the pair that
    [CircuitStatus] is built from. *)
Definition circuit_status {JobStatus StatusEnum : Type}
    (job_status : AerJob → JobStatus) (status_value : JobStatus → string)
    (_STATUS_MAP : JobStatus → option StatusEnum) (handle : ResultHandle)
    : method_of (StatusEnum * string) :=
  λ self,
  match cache_job handle self with
  | Raise e => (Raise e, self)
  | Ok job =>
    let ibmstatus := job_status job in
    match _STATUS_MAP ibmstatus with
    | Some status => (Ok (status, status_value ibmstatus), self)
    | None => (Raise KeyError, self)
    end
  end.

End backend.

End Aer.

(** ** Sample inputs *)

Module Sample.
Import Noise.

(** A fragment of the table [_gate_str_2_optype]. *)
Definition table (name : string) : option OpType :=
  if decide (name = "cx") then Some Op.CX
  else if decide (name = "cz") then Some Op.CZ
  else if decide (name = "h") then Some Op.H
  else if decide (name = "x") then Some Op.X
  else if decide (name = "rz") then Some Op.Rz
  else if decide (name = "measure") then Some Op.Measure
  else None.

Definition gates : gset OpType := {[Op.CX; Op.H; Op.X; Op.Rz; Op.Measure]}.

(** A noise model whose [to_dict()] is [{"errors": es}]. *)
Definition noise_model (es : list ErrorEvent) : NoiseModel :=
  mkNoiseModel {["errors" := ErrorList es]}.

(** A quantum error of gate [name] on the qubits [qs], first probability [f]. *)
Definition quantum_error (name : string) (qs : list nat) (f : Q) : ErrorEvent :=
  mkErrorEvent (qerror [["id"]; ["x"]] [f; (1 - f)%Q]) [name] (Some [qs]).

Definition readout_error (q : nat) (p01 p10 : Q) : ErrorEvent :=
  mkErrorEvent (roerror [[(1 - p01)%Q; p01]; [p10; (1 - p10)%Q]]) ["measure"]
    (Some [[q]]).


(** The simulators that [Aer.backends()] lists. *)
Definition backends : list Aer.QiskitAerBackend :=
  [Aer.mkQiskitAerBackend "aer_simulator" ["cx"; "cz"; "h"; "x"; "rz"; "unitary"] "automatic";
   Aer.mkQiskitAerBackend "aer_simulator_statevector" ["cx"; "h"; "x"; "rz"] "statevector";
   Aer.mkQiskitAerBackend "aer_simulator_density_matrix" ["cx"; "h"; "x"; "rz"] "density_matrix";
   Aer.mkQiskitAerBackend "aer_simulator_unitary" ["cx"; "h"; "x"; "rz"] "unitary"].

(** A backend object with a connectivity constraint and an active noise
    model, as [AerBackend.__init__] leaves it. *)
Definition arch01 : Architecture := mkArchitecture [(0, 1)].

Definition noisy_backend : Aer.AerBaseBackend (BackendResult := string)
                             (CrosstalkParams := unit) :=
  Aer.mkAerBaseBackend
    (Aer.mkEngine
       (Aer.mkQiskitAerBackend "aer_simulator" ["cx"; "h"] "automatic") 0 0)
    (Aer.mkBackendInfo "AerBackend" "aer_simulator" (Arch arch01) gates
       true false true None None None None None None ∅)
    true
    [Aer.NoSymbolsPredicate; Aer.GateSetPredicate gates;
     Aer.ConnectivityPredicate (Arch arch01)]
    (Some (noise_model [quantum_error "cx" [0; 1] (99 # 100)]))
    true false None true true false false false true ∅.

(** A noiseless backend object on a fully connected architecture. *)
Definition ideal_backend : Aer.AerBaseBackend (BackendResult := string)
                             (CrosstalkParams := unit) :=
  Aer.mkAerBaseBackend
    (Aer.mkEngine
       (Aer.mkQiskitAerBackend "aer_simulator" ["cx"; "h"] "automatic") 0 0)
    (Aer.mkBackendInfo "AerBackend" "aer_simulator" (FullyConnected 40) gates
       true false true None None None None None None
       {["characterisation" := None]})
    true
    [Aer.NoSymbolsPredicate; Aer.GateSetPredicate gates]
    None false false None true true false false false true ∅.

(** A stand-in for the collaborators: a circuit is a qubit count and a tag,
    lowering keeps it, the engine names its jobs in sequence and answers each
    circuit with a result that carries the tag of the circuit. *)
Definition Circuit : Type := nat * string.

Definition new_job_id (n : nat) : string := "job-" +:+ pretty n.

Definition simulate (qcs : list Circuit) (shots : option nat) (memory : bool)
    (seed : option Z) (nm : option Noise.NoiseModel) : list string :=
  map (λ qc, "result of " +:+ qc.2) qcs.

Definition process_circuits :=
  Aer.process_circuits (Circuit := Circuit) (QuantumCircuit := Circuit)
    (BackendResult := string) (CrosstalkParams := unit)
    new_job_id simulate fst (λ c, (c, "{}")) (λ c _, c) id id id (λ qcs _, qcs)
    (λ _ c, c) (λ _ _, true).

Definition get_result :=
  Aer.get_result (BackendResult := string) (CrosstalkParams := unit).

End Sample.

(** * Properties *)

(** ** Results *)

Lemma bind_Ok {A B} (r : result A) (k : A → result B) (b : B) :
  r ≫= k = Ok b ↔ ∃ a, r = Ok a ∧ k a = Ok b.
Proof.
  destruct r as [a|e]; simpl.
  - split; [eauto | by intros (? & [= ->] & ?)].
  - split; [done | by intros (? & ? & ?)].
Qed.

Lemma bind_Ok_l {A B} (a : A) (k : A → result B) : Ok a ≫= k = k a.
Proof. reflexivity. Qed.


Lemma fmap_Ok {A B} (f : A → B) (r : result A) (b : B) :
  f <$> r = Ok b ↔ ∃ a, r = Ok a ∧ b = f a.
Proof.
  destruct r as [a|e]; simpl.
  - split; [intros [= <-]; eauto | by intros (? & [= ->] & ->)].
  - split; [done | by intros (? & ? & ?)].
Qed.

Lemma list_getitem_Ok {A} (l : list A) i a :
  list_getitem l i = Ok a ↔ l !! i = Some a.
Proof. unfold list_getitem. destruct (l !! i); naive_solver. Qed.

Lemma getitem_Ok `{Countable K} {V} (d : gmap K V) k v :
  getitem d k = Ok v ↔ d !! k = Some v.
Proof. unfold getitem. destruct (d !! k); naive_solver. Qed.

Lemma is_Raise_not_Ok {A} (r : result A) : is_Raise r ↔ ∀ a, r ≠ Ok a.
Proof.
  destruct r as [a|e]; split.
  - by intros [? ?].
  - intros Hn. by destruct (Hn a).
  - done.
  - intros _. by exists e.
Qed.

(** ** The noise-model characterisation *)

Module NoiseFacts.
Import Noise.

Section dd.
Context `{Countable K}.
Implicit Types (d : gmap K (gmap OpType Q)) (k p : K) (o : OpType) (x : Q).

Lemma dd_update_lookup d k o x :
  dd_update d k o x !! k = Some (<[o := x]> (default ∅ (d !! k))).
Proof. unfold dd_update. by rewrite lookup_insert_eq. Qed.

Lemma dd_update_lookup_ne d k p o x :
  k ≠ p → dd_update d k o x !! p = d !! p.
Proof. intros. unfold dd_update. by rewrite lookup_insert_ne. Qed.

Lemma entry_dd_update d k o x : entry (dd_update d k o x) k o = Some x.
Proof. unfold entry. rewrite dd_update_lookup. simpl. by rewrite lookup_insert_eq. Qed.

Lemma entry_dd_update_ne d k p o o' x :
  k ≠ p ∨ o ≠ o' → entry (dd_update d k o x) p o' = entry d p o'.
Proof.
  intros Hne. unfold entry. destruct (decide (k = p)) as [<-|].
  - destruct Hne as [|Hne]; [done|]. rewrite dd_update_lookup. simpl.
    rewrite lookup_insert_ne by done. by destruct (d !! k).
  - by rewrite dd_update_lookup_ne.
Qed.

Lemma dd_update_dom d k o x : dom (dd_update d k o x) = {[k]} ∪ dom d.
Proof. unfold dd_update. by rewrite dom_insert_L. Qed.

Lemma dd_update_nonempty d k o x :
  map_Forall (λ _ v, v ≠ ∅) d → map_Forall (λ _ v, v ≠ ∅) (dd_update d k o x).
Proof.
  intros Hd. unfold dd_update. apply map_Forall_insert_2; [|done].
  apply insert_non_empty.
Qed.

End dd.

Section completion.
Context {A : Type}.
Implicit Types (l r : list A) (x y : A).

Lemma picks_perm l x r : (x, r) ∈ picks l → x :: r ≡ₚ l.
Proof.
  revert x r. induction l as [|z l IH]; intros x r; simpl.
  - by intros ?%elem_of_nil.
  - intros [[= -> ->]|Hin]%elem_of_cons; [done|].
    apply list_elem_of_fmap in Hin as ([y r'] & [= -> ->] & Hin). simpl.
    rewrite Permutation_swap. by rewrite (IH _ _ Hin).
Qed.

Lemma picks_elem l x : x ∈ l → ∃ r, (x, r) ∈ picks l.
Proof.
  induction l as [|z l IH]; simpl.
  - by intros ?%elem_of_nil.
  - intros [->|Hin]%elem_of_cons.
    + eexists. apply list_elem_of_here.
    + destruct (IH Hin) as [r Hr]. exists (z :: r).
      apply list_elem_of_further, list_elem_of_fmap. by exists (x, r).
Qed.

Lemma elem_of_permutations2 l x y :
  NoDup l → (x, y) ∈ permutations2 l ↔ x ∈ l ∧ y ∈ l ∧ x ≠ y.
Proof.
  intros Hl. unfold permutations2. rewrite list_elem_of_In, in_flat_map. split.
  - intros ([x' r] & Hin%list_elem_of_In & Hy%list_elem_of_In).
    apply list_elem_of_fmap in Hy as (y' & [= -> ->] & Hy). simpl in *.
    apply picks_perm in Hin. rewrite <-Hin in Hl |- *.
    apply NoDup_cons in Hl as [Hx _].
    split_and!; [by left | by right | by intros ->].
  - intros (Hx & Hy & Hne). destruct (picks_elem _ _ Hx) as [r Hr].
    exists (x, r). split; [by apply list_elem_of_In|].
    apply list_elem_of_In, list_elem_of_fmap. exists y. split; [done|]. simpl.
    apply picks_perm in Hr. rewrite <-Hr in Hy.
    apply elem_of_cons in Hy as [->|]; done.
Qed.

End completion.

Lemma elem_of_free_link_pairs (free_qubits link_qubits : list nat) a b :
  (a, b) ∈ free_link_pairs free_qubits link_qubits ↔
  (a ∈ free_qubits ∧ b ∈ link_qubits) ∨ (a ∈ link_qubits ∧ b ∈ free_qubits).
Proof.
  unfold free_link_pairs. rewrite list_elem_of_In, in_flat_map. split.
  - intros (q & Hq%list_elem_of_In & Hin). apply in_flat_map in Hin as (lq & Hlq%list_elem_of_In & Hin).
    apply list_elem_of_In in Hin. set_unfold. naive_solver.
  - intros [[Ha Hb]|[Ha Hb]].
    + exists a. split; [by apply list_elem_of_In|]. apply in_flat_map.
      exists b. split; [by apply list_elem_of_In|]. simpl. auto.
    + exists b. split; [by apply list_elem_of_In|]. apply in_flat_map.
      exists a. split; [by apply list_elem_of_In|]. simpl. auto.
Qed.

(** Membership in the completed coupling list. *)
Lemma elem_of_complete_coupling_map st a b :
  let free := st_qubits_set st ∖ st_qubits_with_link_errors st in
  (a, b) ∈ complete_coupling_map st ↔
  (a, b) ∈ st_coupling_map st ∨
  (a ∈ free ∧ b ∈ st_qubits_with_link_errors st) ∨
  (a ∈ st_qubits_with_link_errors st ∧ b ∈ free) ∨
  (a ∈ free ∧ b ∈ free ∧ a ≠ b).
Proof.
  intros free. unfold complete_coupling_map. fold free.
  rewrite !elem_of_app, elem_of_free_link_pairs,
    elem_of_permutations2 by apply NoDup_elements.
  rewrite !elem_of_elements. tauto.
Qed.

Section loop.
Variable tbl : string → option OpType.
Implicit Types (e error : ErrorEvent) (es : list ErrorEvent) (st : LoopState).

(** The three ways in which the loop body completes. *)
Inductive step_case e st st' : Prop :=
  | step_single q name optype gate_fid
      (Ht : targets e = Some [q])
      (Hn : operations e = [name])
      (Ho : tbl name = Some optype)
      (Hf : probs_head (body_probabilities (body e)) = Ok gate_fid)
      (Hst : (∃ instr ps x,
                body e = qerror instr ps ∧ one_minus gate_fid = Ok x ∧
                st' = mkLoopState
                        (dd_update (st_node_errors st) q optype x)
                        (st_link_errors st) (st_readout_errors st)
                        (dd_append (st_generic_single_qerrors_dict st) q (instr, QProbs ps))
                        (st_generic_2q_qerrors_dict st)
                        ({[q]} ∪ st_qubits_set st)
                        (st_qubits_with_link_errors st) (st_coupling_map st)) ∨
             (∃ m,
                body e = roerror m ∧
                st' = mkLoopState
                        (st_node_errors st) (st_link_errors st)
                        (<[q := m]> (st_readout_errors st))
                        (st_generic_single_qerrors_dict st)
                        (st_generic_2q_qerrors_dict st)
                        ({[q]} ∪ st_qubits_set st)
                        (st_qubits_with_link_errors st) (st_coupling_map st)))
  | step_link q0 q1 name optype f instr ps
      (Ht : targets e = Some [q0; q1])
      (Hn : operations e = [name])
      (Ho : tbl name = Some optype)
      (Hb : body e = qerror instr (f :: ps))
      (Hst : st' = mkLoopState
                     (st_node_errors st)
                     (dd_update (dd_update (st_link_errors st) (q0, q1) optype (1 - f))
                        (q1, q0) optype (1 - f ^ 2))
                     (st_readout_errors st)
                     (st_generic_single_qerrors_dict st)
                     (dd_append (st_generic_2q_qerrors_dict st) (q0, q1)
                        (instr, QProbs (f :: ps)))
                     (st_qubits_set st)
                     ({[q1]} ∪ ({[q0]} ∪ st_qubits_with_link_errors st))
                     (st_coupling_map st ++ [(q0, q1)]))
  | step_skip qubits
      (Ht : targets e = Some qubits)
      (Hlen : length qubits ≠ 1 ∧ length qubits ≠ 2)
      (Hst : st' = st).

Lemma process_error_Ok e st st' :
  process_error tbl e st = Ok st' → step_case e st st'.
Proof.
  unfold process_error. intros Hp.
  case_decide as Hlen; [done|].
  destruct (gate_qubits e) as [gq|] eqn:Hgq; [|done].
  apply bind_Ok in Hp as (name & Hname & Hp).
  apply bind_Ok in Hp as (qubits & Hqubits & Hp).
  apply bind_Ok in Hp as (gate_fid & Hfid & Hp).
  apply list_getitem_Ok in Hname, Hqubits.
  assert (operations e = [name]) as Hops.
  { destruct (operations e) as [|? [|]]; simplify_eq/=; [done|lia]. }
  assert (targets e = Some qubits) as Ht.
  { unfold targets. rewrite Hgq. simpl. by destruct gq; simplify_eq/=. }
  destruct qubits as [|q0 [|q1 [|]]].
  - eapply step_skip; eauto; by simplify_eq/=.
  - apply bind_Ok in Hp as (optype & Ho & Hp).
    unfold gate_optype in Ho.
    destruct (tbl name) as [optype'|] eqn:Ho'; simplify_eq/=.
    eapply step_single; eauto.
    destruct (body e) as [instr ps|m|] eqn:Hb; simplify_eq/=.
    + apply bind_Ok in Hp as (x & Hx & Hp). left. exists instr, ps, x.
      by simplify_eq/=.
    + right. eauto.
  - apply bind_Ok in Hp as (optype & Ho & Hp).
    unfold gate_optype in Ho.
    destruct (tbl name) as [optype'|] eqn:Ho'; simplify_eq/=.
    apply bind_Ok in Hp as (x & Hx & Hp).
    apply bind_Ok in Hp as (y & Hy & Hp).
    apply bind_Ok in Hp as (instr & Hi & Hp).
    destruct (body e) as [instr' ps|m|] eqn:Hb; simplify_eq/=.
    destruct ps as [|f ps]; simplify_eq/=.
    eapply step_link; eauto.
  - eapply step_skip; eauto; [simpl; lia..|by simplify_eq/=].
Qed.


Lemma process_errors_cons_Ok e es st st' :
  process_errors tbl (e :: es) st = Ok st' ↔
  ∃ st1, process_error tbl e st = Ok st1 ∧ process_errors tbl es st1 = Ok st'.
Proof. simpl. apply bind_Ok. Qed.

(** What one event adds to the sets and to the coupling list. *)
Lemma step_qubits_set e st st' :
  process_error tbl e st = Ok st' →
  st_qubits_set st' = single_qubits [e] ∪ st_qubits_set st.
Proof.
  intros Hp. apply process_error_Ok in Hp. unfold single_qubits. simpl.
  destruct Hp as [q ????? ? ? [(?&?&?&?&?&->)|(?&?&->)]|??????? Ht ? ? ? ->|qs Ht [??] ->];
    rewrite Ht; simpl; [set_solver+..|].
  destruct qs as [|? [|]]; simpl in *; [set_solver+|lia|set_solver+].
Qed.

Lemma step_qubits_with_link_errors e st st' :
  process_error tbl e st = Ok st' →
  st_qubits_with_link_errors st'
  = link_qubits [e] ∪ st_qubits_with_link_errors st.
Proof.
  intros Hp. apply process_error_Ok in Hp. unfold link_qubits. simpl.
  destruct Hp as [q ????? ? ? [(?&?&?&?&?&->)|(?&?&->)]|??????? Ht ? ? ? ->|qs Ht [??] ->];
    rewrite Ht; simpl; [set_solver+..|].
  destruct qs as [|? [|? [|]]]; simpl in *; [set_solver+..|lia|set_solver+].
Qed.

Lemma step_coupling_map e st st' :
  process_error tbl e st = Ok st' →
  st_coupling_map st' = st_coupling_map st ++ link_pairs [e].
Proof.
  intros Hp. apply process_error_Ok in Hp. unfold link_pairs. simpl.
  destruct Hp as [q ????? ? ? [(?&?&?&?&?&->)|(?&?&->)]|??????? Ht ? ? ? ->|qs Ht [??] ->];
    rewrite Ht; simpl; rewrite ?app_nil_r; try done.
  destruct qs as [|? [|? [|]]]; simpl in *; rewrite ?app_nil_r; try done; lia.
Qed.

Lemma step_link_errors_dom e st st' :
  process_error tbl e st = Ok st' →
  dom (st_link_errors st')
  = list_to_set (link_pairs [e]) ∪ list_to_set (prod_swap <$> link_pairs [e])
    ∪ dom (st_link_errors st).
Proof.
  intros Hp. apply process_error_Ok in Hp. unfold link_pairs. simpl.
  destruct Hp as [q ????? ? ? [(?&?&?&?&?&->)|(?&?&->)]|??????? Ht ? ? ? ->|qs Ht [??] ->];
    rewrite Ht; simpl; [set_solver+..| |].
  - rewrite !dd_update_dom. set_solver+.
  - destruct qs as [|? [|? [|]]]; simpl in *; [set_solver+..|lia|set_solver+].
Qed.

Lemma single_qubits_cons e es :
  single_qubits (e :: es) = single_qubits [e] ∪ single_qubits es.
Proof. unfold single_qubits. simpl. set_solver+. Qed.

Lemma link_qubits_cons e es :
  link_qubits (e :: es) = link_qubits [e] ∪ link_qubits es.
Proof. unfold link_qubits. simpl. set_solver+. Qed.

Lemma link_pairs_cons e es :
  link_pairs (e :: es) = link_pairs [e] ++ link_pairs es.
Proof. unfold link_pairs. simpl. by destruct (match targets e with Some [q0; q1] => _ | _ => _ end). Qed.

(** The sets, the coupling list and the keys of the link errors that the loop
    builds are those read off the list of events. *)
Lemma process_errors_summary es st st' :
  process_errors tbl es st = Ok st' →
  st_qubits_set st' = single_qubits es ∪ st_qubits_set st ∧
  st_qubits_with_link_errors st' = link_qubits es ∪ st_qubits_with_link_errors st ∧
  st_coupling_map st' = st_coupling_map st ++ link_pairs es ∧
  dom (st_link_errors st')
  = list_to_set (link_pairs es) ∪ list_to_set (prod_swap <$> link_pairs es)
    ∪ dom (st_link_errors st).
Proof.
  revert st. induction es as [|e es IH]; intros st Hp.
  - simpl in Hp. simplify_eq. unfold single_qubits, link_qubits, link_pairs. simpl.
    rewrite app_nil_r. set_solver+.
  - apply process_errors_cons_Ok in Hp as (st1 & H1 & Hp).
    destruct (IH _ Hp) as (-> & -> & -> & ->).
    rewrite (step_qubits_set _ _ _ H1), (step_qubits_with_link_errors _ _ _ H1),
      (step_coupling_map _ _ _ H1), (step_link_errors_dom _ _ _ H1).
    rewrite (single_qubits_cons e es), (link_qubits_cons e es), (link_pairs_cons e es).
    rewrite fmap_app, !list_to_set_app_L, <-app_assoc.
    split_and!; [set_solver+ | set_solver+ | done | set_solver+].
Qed.

(** A dict comprehension that completes maps every value. *)
Lemma first_raise_None {A B} (f : A → result B) (l : list A) :
  first_raise f l = None → Forall (λ a, is_Ok (f a)) l.
Proof.
  induction l as [|a l IH]; simpl; [by constructor|].
  destruct (f a) as [b|] eqn:Hfa; [|done].
  intros Hl. constructor; [by exists b | by apply IH].
Qed.

Lemma dict_comprehension_Ok `{Countable K} {A B} (f : A → result B)
    (d : gmap K A) (m : gmap K B) :
  dict_comprehension f d = Ok m →
  ∀ k, match d !! k with
       | Some a => ∃ b, f a = Ok b ∧ m !! k = Some b
       | None => m !! k = None
       end.
Proof.
  unfold dict_comprehension.
  destruct (first_raise _ _) eqn:Hfr; [done|]. intros [= <-] k.
  rewrite lookup_omap. destruct (d !! k) as [a|] eqn:Hk; simpl; [|done].
  apply first_raise_None in Hfr. rewrite Forall_forall in Hfr.
  destruct (Hfr a) as [b Hb].
  { apply list_elem_of_fmap. exists (k, a). split; [done|].
    by apply elem_of_map_to_list. }
  exists b. by rewrite Hb.
Qed.

Lemma dict_comprehension_empty `{Countable K} {A B} (f : A → result B) :
  dict_comprehension f (∅ : gmap K A) = Ok ∅.
Proof.
  unfold dict_comprehension. rewrite map_to_list_empty. simpl.
  by rewrite omap_empty.
Qed.

Lemma errors_of_spec nm v es :
  to_dict nm !! "errors" = Some v → error_dicts v = Ok es →
  errors_of nm = filter (λ e, is_qerror_or_roerror e = true) es.
Proof.
  unfold errors_of. intros -> Hv.
  destruct v as [?|[|??]]; by simplify_eq/=.
Qed.

(** What a completed run of [_process_noise_model] returns. *)
Lemma process_noise_model_Ok nm gate_set c :
  _process_noise_model tbl nm gate_set = Ok c →
  ∃ st avn avl avr,
    Op.CX ∈ gate_set ∧
    process_errors tbl (errors_of nm) init_state = Ok st ∧
    dict_comprehension average (st_node_errors st) = Ok avn ∧
    dict_comprehension average (st_link_errors st) = Ok avl ∧
    dict_comprehension readout_average (st_readout_errors st) = Ok avr ∧
    c = mkNoiseModelCharacterisation
          (mkArchitecture (complete_coupling_map st))
          (Some (st_node_errors st)) (Some (st_link_errors st))
          (Some (st_readout_errors st)) (Some avn) (Some avl) (Some avr)
          (Some (mkGenericQErrors
                   (map_to_list (st_generic_single_qerrors_dict st))
                   (map_to_list (st_generic_2q_qerrors_dict st)))).
Proof.
  unfold _process_noise_model. case_decide as HCX; [|done]. intros Hp.
  apply bind_Ok in Hp as (v & Hv%getitem_Ok & Hp).
  destruct (error_dicts v) as [es|] eqn:Hes; [|done].
  rewrite <-(errors_of_spec _ _ _ Hv Hes) in Hp.
  apply bind_Ok in Hp as (st & Hst & Hp).
  apply bind_Ok in Hp as (avn & Havn & Hp).
  apply bind_Ok in Hp as (avl & Havl & Hp).
  apply bind_Ok in Hp as (avr & Havr & Hp).
  exists st, avn, avl, avr. by simplify_eq.
Qed.

End loop.









(** The loop started on the empty state. *)
Lemma process_errors_init tbl es st :
  process_errors tbl es init_state = Ok st →
  st_qubits_set st = single_qubits es ∧
  st_qubits_with_link_errors st = link_qubits es ∧
  st_coupling_map st = link_pairs es ∧
  dom (st_link_errors st)
  = list_to_set (link_pairs es) ∪ list_to_set (prod_swap <$> link_pairs es).
Proof.
  intros (-> & -> & -> & ->)%process_errors_summary. simpl.
  rewrite dom_empty_L. split_and!; [set_solver+ | set_solver+ | done | set_solver+].
Qed.

Lemma elem_of_link_pairs es q0 q1 :
  (q0, q1) ∈ link_pairs es ↔ ∃ e, e ∈ es ∧ targets e = Some [q0; q1].
Proof.
  unfold link_pairs. rewrite list_elem_of_omap. split.
  - intros (e & He & Hm). exists e. split; [done|].
    destruct (targets e) as [[|? [|? [|]]]|]; by simplify_eq.
  - intros (e & He & Ht). exists e. by rewrite Ht.
Qed.

Lemma link_pairs_link_qubits es q0 q1 :
  (q0, q1) ∈ link_pairs es → q0 ∈ link_qubits es ∧ q1 ∈ link_qubits es.
Proof.
  intros (e & He & Ht)%elem_of_link_pairs. unfold link_qubits.
  split; apply elem_of_union_list; eexists; (split; [apply list_elem_of_fmap; by exists e|]);
    rewrite Ht; set_solver+.
Qed.

(** *** Well-formed noise models are characterised *)

Lemma dict_comprehension_total `{Countable K} {A B} (f : A → result B)
    (d : gmap K A) :
  map_Forall (λ _ a, is_Ok (f a)) d → is_Ok (dict_comprehension f d).
Proof.
  intros Hd. unfold dict_comprehension.
  assert (first_raise f (map_to_list d).*2 = None) as ->; [|by eexists].
  assert (Forall (λ a, is_Ok (f a)) (map_to_list d).*2) as Hall.
  { apply Forall_fmap, Forall_forall. intros [k a] Hka%elem_of_map_to_list.
    by apply (Hd k a). }
  induction Hall as [|a l [b Hb] _ IH]; simpl; [done|]. by rewrite Hb.
Qed.

Lemma average_total (v : gmap OpType Q) : v ≠ ∅ → is_Ok (average v).
Proof.
  intros Hv. unfold average. rewrite decide_False; [by eexists|].
  by rewrite map_size_empty_iff.
Qed.

Lemma process_error_total tbl e st :
  well_formed tbl e → averageable st →
  ∃ st', process_error tbl e st = Ok st' ∧ averageable st'.
Proof.
  intros [(name & Hops & [optype Ho]) Hshape] (Hn & Hl & Hr).
  unfold process_error, gate_optype. rewrite Hops. simpl.
  unfold targets in Hshape.
  destruct (gate_qubits e) as [[|qubits gq]|]; simpl in Hshape;
    try (by destruct (body e) as [? [|??]|[|[|?[|?[|??]]] [|[|?[|?[|??]]] [|??]]]|]).
  destruct (body e) as [instr [|f ps]|[|[|a[|b[|??]]] [|[|c[|d[|??]]] [|??]]]|];
    try done; destruct qubits as [|q0 [|q1 [|??]]]; try done; simpl; rewrite Ho; simpl.
  - eexists. split; [reflexivity|]. split_and!; simpl; [|done..].
    by apply dd_update_nonempty.
  - eexists. split; [reflexivity|]. split_and!; simpl; [done| |done].
    by do 2 apply dd_update_nonempty.
  - eexists. split; [reflexivity|]. split_and!; simpl; [done..|].
    apply map_Forall_insert_2; [by eexists | done].
Qed.

Lemma process_errors_total tbl es st :
  Forall (well_formed tbl) es → averageable st →
  ∃ st', process_errors tbl es st = Ok st' ∧ averageable st'.
Proof.
  intros Hes. revert st. induction Hes as [|e es He _ IH]; intros st Hst; simpl.
  - by exists st.
  - destruct (process_error_total tbl e st He Hst) as (st1 & -> & Hst1). simpl.
    by apply IH.
Qed.

(** X5: a noise model whose errors are well formed is characterised, on any gate
    set that holds CX: the hypotheses of the statements below about a
    completed characterisation are met by every such noise model. *)
Theorem process_noise_model_total tbl nm gate_set es :
  Op.CX ∈ gate_set →
  to_dict nm !! "errors" = Some (ErrorList es) →
  Forall (well_formed tbl) (errors_of nm) →
  is_Ok (_process_noise_model tbl nm gate_set).
Proof.
  intros HCX Hes Hwf. unfold _process_noise_model.
  rewrite decide_True by done. unfold getitem. rewrite Hes. simpl.
  unfold errors_of in Hwf. rewrite Hes in Hwf.
  destruct (process_errors_total tbl _ init_state Hwf) as (st & -> & Hn & Hl & Hr).
  { split_and!; apply map_Forall_empty. }
  simpl.
  destruct (dict_comprehension_total average (st_node_errors st)) as [avn ->].
  { eapply map_Forall_impl; [exact Hn|]. intros ???. by apply average_total. }
  destruct (dict_comprehension_total average (st_link_errors st)) as [avl ->].
  { eapply map_Forall_impl; [exact Hl|]. intros ???. by apply average_total. }
  destruct (dict_comprehension_total readout_average (st_readout_errors st))
    as [avr ->]; [done|].
  by eexists.
Qed.

(** Decides a closed proposition by evaluation. *)
Ltac by_compute := apply (bool_decide_unpack _); vm_compute; exact I.

(** C3, as stated, fails: qubit 0 is the target of an error event (on three
    qubits) and of no two-qubit event, qubit 3 is link-constrained, and the
    pair (0, 3) is not in the coupling list. *)
Lemma completion_misses_three_qubit_event :
  let nm := Sample.noise_model
              [Sample.quantum_error "ccx" [0; 1; 2] (9 # 10);
               Sample.quantum_error "cx" [3; 4] (9 # 10)] in
  ∃ c, _process_noise_model Sample.table nm Sample.gates = Ok c ∧
       0 ∈ event_qubits (errors_of nm) ∧
       (0 ∉ link_qubits (errors_of nm)) ∧
       3 ∈ link_qubits (errors_of nm) ∧
       ((0, 3) ∉ coupling (architecture c)).
Proof.
  eexists. split; [vm_compute; reflexivity|].
  split_and!; by_compute.
Qed.

(** C3, amended: the free qubits are those of the single-qubit events that no
    two-qubit event targets.  The coupling list of a completed
    characterisation holds both directions between each free qubit and each
    link-constrained qubit and every ordered pair of distinct free qubits; for
    a noise model whose errors are all single-qubit it holds exactly the ordered
    pairs of distinct qubits that occur in the events. *)
Theorem free_qubit_completion tbl nm gate_set c :
  _process_noise_model tbl nm gate_set = Ok c →
  let es := errors_of nm in
  let free := single_qubits es ∖ link_qubits es in
  let cm := coupling (architecture c) in
  (∀ f l, f ∈ free → l ∈ link_qubits es → (f, l) ∈ cm ∧ (l, f) ∈ cm) ∧
  (∀ f g, f ∈ free → g ∈ free → f ≠ g → (f, g) ∈ cm) ∧
  (Forall (λ e, ∃ q, targets e = Some [q]) es →
   ∀ a b, (a, b) ∈ cm ↔ a ∈ event_qubits es ∧ b ∈ event_qubits es ∧ a ≠ b).
Proof.
  intros Hp es free cm.
  apply process_noise_model_Ok in Hp as (st & avn & avl & avr & _ & Hst & _ & _ & _ & ->).
  apply process_errors_summary in Hst as (Hqs & Hlq & Hcm & _).
  simpl in Hqs, Hlq, Hcm. rewrite union_empty_r_L in Hqs, Hlq.
  assert (∀ a b, (a, b) ∈ cm ↔
            (a, b) ∈ link_pairs es ∨ (a ∈ free ∧ b ∈ link_qubits es) ∨
            (a ∈ link_qubits es ∧ b ∈ free) ∨ (a ∈ free ∧ b ∈ free ∧ a ≠ b)) as Hin.
  { intros a b. subst cm. simpl. rewrite elem_of_complete_coupling_map.
    by rewrite Hqs, Hlq, Hcm. }
  split_and!.
  - intros f l Hf Hl. rewrite !Hin. tauto.
  - intros f g Hf Hg Hne. rewrite Hin. tauto.
  - intros Hsingle a b.
    assert (link_pairs es = [] ∧ link_qubits es = ∅ ∧
            event_qubits es = single_qubits es) as (Hlp & Hl & He).
    { clear -Hsingle. unfold link_pairs, link_qubits, event_qubits, single_qubits.
      induction Hsingle as [|e es' [q Hq] _ (IH1 & IH2 & IH3)]; simpl; [done|].
      rewrite Hq. simpl.
      split_and!; [exact IH1 | rewrite IH2; set_solver+ | rewrite IH3; set_solver+]. }
    rewrite Hin, Hlp, He. subst free. rewrite Hl.
    rewrite elem_of_nil. set_solver+.
Qed.

Lemma free_qubit_completion_witness :
  let nm := Sample.noise_model
              [Sample.quantum_error "h" [0] (99 # 100);
               Sample.readout_error 1 (1 # 50) (1 # 20);
               Sample.quantum_error "cx" [2; 3] (9 # 10)] in
  ∃ c, _process_noise_model Sample.table nm Sample.gates = Ok c ∧
       (0, 2) ∈ coupling (architecture c) ∧ (2, 0) ∈ coupling (architecture c) ∧
       (0, 1) ∈ coupling (architecture c).
Proof.
  intros nm. eexists. split; [vm_compute; reflexivity|].
  match goal with
  | |- context [architecture ?c] =>
    assert (_process_noise_model Sample.table nm Sample.gates = Ok c) as Hc
      by (vm_compute; reflexivity);
    destruct (free_qubit_completion _ _ _ _ Hc) as (Hfl & Hff & _)
  end.
  split_and!; [apply (Hfl 0 2) | apply (Hfl 0 2) | apply (Hff 0 1)]; by_compute.
Defined.

(** C10, as stated, fails: with one error in each direction of a pair the
    edge-error map has two keys and the errors contribute two pairs to the
    coupling list. *)
Lemma edge_keys_not_more_than_couplings :
  let nm := Sample.noise_model
              [Sample.quantum_error "cx" [0; 1] (99 # 100);
               Sample.quantum_error "cx" [1; 0] (98 # 100)] in
  ∃ c m, _process_noise_model Sample.table nm Sample.gates = Ok c ∧
         edge_errors c = Some m ∧
         link_pairs (errors_of nm) = [(0, 1); (1, 0)] ∧
         coupling (architecture c) = [(0, 1); (1, 0)] ∧
         size m = 2 ∧
         ¬ (size (list_to_set (link_pairs (errors_of nm)) : gset (nat * nat)) < size m).
Proof.
  do 2 eexists. split; [vm_compute; reflexivity|].
  split_and!; [done| by vm_compute..| ].
  apply (bool_decide_unpack _). by vm_compute.
Qed.

(** C10, amended: a two-qubit error on (q0, q1) appends the forward pair, and
    only it, to the coupling list, and gives an edge-error entry to both
    directions; the reverse pair is in the coupling list only when another
    error targets it.  The keys of the edge-error map are the target pairs
    and their reverses, so they are at least as many as the distinct pairs
    contributed to the coupling list, and strictly more when the reverse of
    some contributed pair is not contributed itself. *)
Theorem forward_pair_only tbl nm gate_set c :
  _process_noise_model tbl nm gate_set = Ok c →
  let pairs := link_pairs (errors_of nm) in
  ∃ m rest,
    edge_errors c = Some m ∧
    coupling (architecture c) = pairs ++ rest ∧
    (∀ q0 q1, (q0, q1) ∈ pairs →
       (q0, q1) ∈ dom m ∧ (q1, q0) ∈ dom m ∧
       ((q1, q0) ∈ rest → False)) ∧
    dom m = list_to_set pairs ∪ list_to_set (prod_swap <$> pairs) ∧
    size (list_to_set pairs : gset (nat * nat)) ≤ size m ∧
    ((∃ p, p ∈ pairs ∧ prod_swap p ∉ pairs) →
     size (list_to_set pairs : gset (nat * nat)) < size m).
Proof.
  intros Hp pairs.
  apply process_noise_model_Ok in Hp as (st & avn & avl & avr & _ & Hst & _ & _ & _ & ->).
  apply process_errors_init in Hst as (Hqs & Hlq & Hcm & Hdom). fold pairs in Hcm, Hdom.
  exists (st_link_errors st), (free_link_pairs
    (elements (st_qubits_set st ∖ st_qubits_with_link_errors st))
    (elements (st_qubits_with_link_errors st))
    ++ permutations2 (elements (st_qubits_set st ∖ st_qubits_with_link_errors st))).
  simpl. unfold complete_coupling_map. rewrite Hcm.
  split_and!; [done | done | | done | |].
  - intros q0 q1 Hin. rewrite Hdom. split_and!.
    + set_solver.
    + apply elem_of_union_r, elem_of_list_to_set, list_elem_of_fmap.
      by exists (q0, q1).
    + apply link_pairs_link_qubits in Hin as [H0 H1]. rewrite <-Hlq in H0, H1.
      rewrite elem_of_app, elem_of_free_link_pairs,
        elem_of_permutations2 by apply NoDup_elements.
      rewrite !elem_of_elements. set_solver.
  - rewrite <-size_dom, Hdom. apply subseteq_size. set_solver+.
  - intros (p & Hp & Hswap). rewrite <-size_dom, Hdom. apply subset_size.
    split; [set_solver+|]. intros Hsub. apply Hswap.
    apply (elem_of_list_to_set (C := gset (nat * nat))), Hsub, elem_of_union_r,
      elem_of_list_to_set, list_elem_of_fmap.
    by exists p.
Qed.

Lemma forward_pair_only_witness :
  let nm := Sample.noise_model [Sample.quantum_error "cx" [0; 1] (99 # 100)] in
  ∃ c, _process_noise_model Sample.table nm Sample.gates = Ok c ∧
       ∃ m, edge_errors c = Some m ∧
            size (list_to_set (link_pairs (errors_of nm)) : gset (nat * nat)) < size m.
Proof.
  intros nm. eexists. split; [vm_compute; reflexivity|].
  match goal with
  | |- context [edge_errors ?c] =>
    assert (_process_noise_model Sample.table nm Sample.gates = Ok c) as Hc
      by (vm_compute; reflexivity);
    destruct (forward_pair_only _ _ _ _ Hc) as (m & rest & Hm & _ & _ & _ & _ & Hlt)
  end.
  exists m. split; [exact Hm|].
  apply Hlt. exists (0, 1). split; by_compute.
Defined.







End NoiseFacts.

(** ** Construction of a backend from a noise model *)

Module ConstructionFacts.
Import Noise NoiseFacts Aer.

Section construction.
Context {BackendResult CrosstalkParams : Type}.
Variable tbl : string → option OpType.
Variable backends : list QiskitAerBackend.
Variable crosstalk_noise_model : CrosstalkParams → NoiseModel.

#[local] Notation AerBackend :=
  (AerBackend (BackendResult := BackendResult) tbl backends crosstalk_noise_model).
#[local] Notation AerDensityMatrixBackend :=
  (AerDensityMatrixBackend (BackendResult := BackendResult)
     (CrosstalkParams := CrosstalkParams) tbl backends).

#[local] Notation characterise := (characterise tbl).





(** The characterisation of "no noise". *)
Lemma characterise_trivial noise_model gate_set :
  (noise_model = None ∨
   ∃ nm, noise_model = Some nm ∧
         map_Forall (λ _ value, is_empty_list value = true) (to_dict nm)) →
  _map_trivial_noise_model_to_none noise_model = None ∧
  characterise noise_model gate_set
  = Ok (mkNoiseModelCharacterisation (mkArchitecture [])
          None None None None None None None).
Proof.
  intros [->|(nm & -> & Hall)]; [done|].
  unfold Aer.characterise, _map_trivial_noise_model_to_none.
  by rewrite decide_True by done.
Qed.

(** C6: for a noise model that is absent, or whose [to_dict()] has only empty
    lists as values (in particular one without errors), the characterisation
    has an empty architecture and no error map, and the constructors of the
    backends that take a noise model ([AerBackend] without crosstalk
    parameters, [AerDensityMatrixBackend]) fall back to
    [FullyConnected(n_qubits)], with no noise model, no connectivity
    constraint and no error data. *)
Theorem trivial_noise_model_falls_back noise_model :
  (noise_model = None ∨
   ∃ nm, noise_model = Some nm ∧
         map_Forall (λ _ value, is_empty_list value = true) (to_dict nm)) →
  (∀ gate_set,
     characterise noise_model gate_set
     = Ok (mkNoiseModelCharacterisation (mkArchitecture [])
             None None None None None None None)) ∧
  (∀ simulation_method n_qubits,
     is_Ok (qiskit_aer_backend backends "aer_simulator") →
     ∃ b, AerBackend noise_model simulation_method None n_qubits = Ok b ∧
          architecture (_backend_info b) = FullyConnected n_qubits ∧
          _has_arch b = false ∧ _noise_model b = None ∧
          all_node_gate_errors (_backend_info b) = None ∧
          all_edge_gate_errors (_backend_info b) = None ∧
          all_readout_errors (_backend_info b) = None ∧
          averaged_node_gate_errors (_backend_info b) = None ∧
          averaged_edge_gate_errors (_backend_info b) = None ∧
          Aer.averaged_readout_errors (_backend_info b) = None) ∧
  (∀ n_qubits,
     is_Ok (qiskit_aer_backend backends "aer_simulator_density_matrix") →
     ∃ b, AerDensityMatrixBackend noise_model n_qubits = Ok b ∧
          architecture (_backend_info b) = FullyConnected n_qubits ∧
          _has_arch b = false ∧ _noise_model b = None ∧
          all_node_gate_errors (_backend_info b) = None ∧
          all_edge_gate_errors (_backend_info b) = None ∧
          all_readout_errors (_backend_info b) = None ∧
          averaged_node_gate_errors (_backend_info b) = None ∧
          averaged_edge_gate_errors (_backend_info b) = None ∧
          Aer.averaged_readout_errors (_backend_info b) = None).
Proof.
  intros Htriv. split_and!.
  - intros gs. by apply characterise_trivial.
  - intros sm n [qb Hqb]. unfold Aer.AerBackend.
    rewrite Hqb, bind_Ok_l. cbv beta.
    match goal with
    | |- context [Aer.characterise _ _ ?gs] =>
      destruct (characterise_trivial noise_model gs Htriv) as [-> ->]
    end.
    rewrite bind_Ok_l. eexists. split; [reflexivity|].
    split_and!; reflexivity.
  - intros n [qb Hqb]. unfold Aer.AerDensityMatrixBackend.
    rewrite Hqb, bind_Ok_l. cbv beta.
    match goal with
    | |- context [Aer.characterise _ _ ?gs] =>
      destruct (characterise_trivial noise_model gs Htriv) as [-> ->]
    end.
    rewrite bind_Ok_l. eexists. split; [reflexivity|].
    split_and!; reflexivity.
Qed.

End construction.

Lemma trivial_noise_model_falls_back_witness :
  ∃ b, AerBackend (BackendResult := nat) (CrosstalkParams := unit)
         Sample.table Sample.backends (λ _, Sample.noise_model [])
         (Some (Sample.noise_model [])) "automatic" None 40 = Ok b ∧
       architecture (_backend_info b) = FullyConnected 40 ∧
       _has_arch b = false.
Proof.
  destruct (trivial_noise_model_falls_back (BackendResult := nat)
              (CrosstalkParams := unit) Sample.table Sample.backends
              (λ _, Sample.noise_model []) (Some (Sample.noise_model [])))
    as (_ & Hb & _).
  { right. eexists. split; [reflexivity|]. by apply map_Forall_singleton. }
  destruct (Hb "automatic" 40) as (b & Hb' & Harch & Hhas & _);
    [eexists; by vm_compute|].
  exists b. split_and!; assumption.
Defined.


End ConstructionFacts.

(** ** The compilation policy *)

Module PolicyFacts.
Import Aer.

Section policy.
Context {BackendResult CrosstalkParams : Type}.
Implicit Types (self : AerBaseBackend (BackendResult := BackendResult)
                        (CrosstalkParams := CrosstalkParams)).

Lemma not_routing_cases p :
  match p with CustomPass _ _ => False | _ => True end → ¬ is_routing p.
Proof. intros Hp (t & l & ->). done. Qed.

(** C8: at each optimisation level from 0 to 3, a backend with an architecture
    of non-empty coupling gets a sequence that holds the routing stage built
    from that architecture exactly once, followed by at least one more stage,
    the last of which is the final rebase (level 0) or [SynthesiseTket]; a
    backend without connectivity constraint gets a sequence with no routing
    stage. *)
Theorem routing_stage_iff_constrained self optimisation_level timeout :
  (0 ≤ optimisation_level < 4)%Z →
  (∀ arch,
     _has_arch self = true → architecture (_backend_info self) = Arch arch →
     coupling arch ≠ [] →
     ∃ before after final,
       default_compilation_pass self optimisation_level timeout
       = Ok (SequencePass (before ++ [routing_of arch] ++ after ++ [final])) ∧
       Forall (λ p, ¬ is_routing p) (before ++ after ++ [final]) ∧
       (final = rebase_pass self ∨ final = SynthesiseTket)) ∧
  (_has_arch self = false ∨
   (∃ arch, architecture (_backend_info self) = Arch arch ∧ coupling arch = []) →
   ∃ passes,
     default_compilation_pass self optimisation_level timeout
     = Ok (SequencePass passes) ∧
     Forall (λ p, ¬ is_routing p) passes).
Proof.
  intros Hlevel.
  assert (optimisation_level = 0 ∨ optimisation_level = 1 ∨
          optimisation_level = 2 ∨ optimisation_level = 3)%Z as Hcases by lia.
  split.
  - intros arch Hhas Harch Hcoupling.
    unfold default_compilation_pass. rewrite Hhas, Harch.
    destruct (coupling arch) as [|c cs] eqn:Hc; [done|]. simpl.
    unfold _arch_dependent_default_compilation_pass.
    rewrite decide_True by done.
    destruct Hcases as [-> | [-> | [-> | ->]]]; simpl.
    + exists [DecomposeBoxes; rebase_pass self; AutoRebase {[Op.CX; Op.TK1]}],
        [], (rebase_pass self).
      split_and!; [done | | by left].
      repeat constructor; by apply not_routing_cases.
    + exists [DecomposeBoxes; SynthesiseTket; AutoRebase {[Op.CX; Op.TK1]}],
        [], SynthesiseTket.
      split_and!; [done | | by right].
      repeat constructor; by apply not_routing_cases.
    + exists [DecomposeBoxes; FullPeepholeOptimise; AutoRebase {[Op.CX; Op.TK1]}],
        [CliffordSimp false], SynthesiseTket.
      split_and!; [done | | by right].
      repeat constructor; by apply not_routing_cases.
    + exists [DecomposeBoxes; RemoveBarriers; AutoRebase {[Op.CX; Op.H; Op.Rz]};
              GreedyPauliSimp timeout true 10; AutoRebase {[Op.CX; Op.TK1]}],
        [], SynthesiseTket.
      split_and!; [done | | by right].
      repeat constructor; by apply not_routing_cases.
  - intros Hfree.
    assert (default_compilation_pass self optimisation_level timeout
            = _arch_independent_default_compilation_pass self optimisation_level
                timeout) as ->.
    { unfold default_compilation_pass.
      destruct Hfree as [Hno|(a & Ha & Hc)]; [by rewrite Hno|].
      rewrite Ha, Hc. by destruct (_has_arch self). }
    unfold _arch_independent_default_compilation_pass.
    rewrite decide_True by done.
    destruct Hcases as [-> | [-> | [-> | ->]]]; simpl;
      (eexists; split; [reflexivity|]);
      repeat constructor; by apply not_routing_cases.
Qed.

End policy.

Lemma routing_stage_iff_constrained_witness :
  (∃ before after final,
     default_compilation_pass Sample.noisy_backend 2 300
     = Ok (SequencePass
             (before ++ [routing_of Sample.arch01] ++ after ++ [final]))) ∧
  (∃ passes,
     default_compilation_pass Sample.ideal_backend 2 300 = Ok (SequencePass passes) ∧
     Forall (λ p, ¬ is_routing p) passes).
Proof.
  split.
  - destruct (routing_stage_iff_constrained Sample.noisy_backend 2 300)
      as [Hc _]; [lia|].
    destruct (Hc Sample.arch01) as (before & after & final & Heq & _);
      [reflexivity | reflexivity | discriminate |].
    by exists before, after, final.
  - destruct (routing_stage_iff_constrained Sample.ideal_backend 2 300)
      as [_ Hu]; [lia|].
    apply Hu. by left.
Defined.

End PolicyFacts.

(** ** Results and expectation values *)

Module ExecFacts.
Import Aer.

Section exec.
Context {Circuit QuantumCircuit BackendResult CrosstalkParams Complex : Type}.
Variable n_qubits_of : Circuit → nat.
Variable tk_to_qiskit : Circuit → bool → QuantumCircuit.
Variable valid : list Predicate → Circuit → bool.
Variable qubits_of : Circuit → list Qubit.
Variable save_expectation_value :
  QuantumCircuit → Hamiltonian (Complex := Complex) → QuantumCircuit.
Variable snapshot : QuantumCircuit → Complex.

#[local] Notation Backend :=
  (AerBaseBackend (BackendResult := BackendResult) (CrosstalkParams := CrosstalkParams)).
#[local] Notation get_pauli_expectation_value :=
  (get_pauli_expectation_value (BackendResult := BackendResult)
     (CrosstalkParams := CrosstalkParams)
     n_qubits_of tk_to_qiskit valid qubits_of save_expectation_value snapshot).
#[local] Notation get_operator_expectation_value :=
  (get_operator_expectation_value (BackendResult := BackendResult)
     (CrosstalkParams := CrosstalkParams)
     n_qubits_of tk_to_qiskit valid qubits_of save_expectation_value snapshot).

Implicit Types (self : Backend) (handle : ResultHandle).

(** C7: for a handle that has no cache entry, [get_result] raises
    [CircuitNotRunError]; it calls no [result()] and leaves the backend, its
    cache included, as it was, so that no result is made up. *)
Theorem unknown_handle_not_run self handle :
  _cache self !! handle = None →
  get_result handle self = (Raise (CircuitNotRunError handle), self).
Proof.
  intros Hnone. destruct handle as [[[jobid pos] qubit_n] ppc].
  unfold get_result, super_get_result. rewrite Hnone. simpl. by rewrite Hnone.
Qed.

(** C9: with a noise model set on the backend, both expectation-value methods
    raise [RuntimeError]; on a backend without a noise model and without
    expectation support they raise [NotImplementedError].  In both cases the
    backend is left as it was: no job is submitted, no value is computed. *)
Theorem expectation_value_guards self state_circuit pauli operator valid_check :
  (is_Some (_noise_model self) →
   get_pauli_expectation_value state_circuit pauli valid_check self
   = (Raise (RuntimeError msg_snapshot_noise), self) ∧
   get_operator_expectation_value state_circuit operator valid_check self
   = (Raise (RuntimeError msg_snapshot_noise), self)) ∧
  (_noise_model self = None → _supports_expectation self = false →
   get_pauli_expectation_value state_circuit pauli valid_check self
   = (Raise (NotImplementedError msg_no_expectation), self) ∧
   get_operator_expectation_value state_circuit operator valid_check self
   = (Raise (NotImplementedError msg_no_expectation), self)).
Proof.
  unfold Aer.get_pauli_expectation_value, Aer.get_operator_expectation_value.
  split.
  - intros [nm ->]. done.
  - intros -> ->. done.
Qed.

Lemma get_result_Ok_entry self self' handle r :
  get_result handle self = (Ok r, self') →
  _cache self' !! handle ≫= entry_result = Some r.
Proof.
  intros Hget. destruct handle as [[[jobid pos] qubit_n] ppc].
  unfold get_result, super_get_result in Hget.
  destruct (_cache self !! _ ≫= entry_result) as [r0|] eqn:Hr0;
    [by simplify_eq|].
  simpl in Hget.
  destruct (_cache self !! _ ≫= entry_job) as [job|]; [|done].
  simpl in Hget.
  destruct (store_results _ _ _ _ _ _) as [[[]|ex] cache]; [|done].
  simpl in Hget.
  destruct (cache !! _ ≫= entry_result) as [r1|] eqn:Hr1; by simplify_eq/=.
Qed.

Lemma get_result_hit self handle r :
  _cache self !! handle ≫= entry_result = Some r →
  get_result handle self = (Ok r, self).
Proof. intros Hc. unfold get_result, super_get_result. by rewrite Hc. Qed.

(** X14: [get_result] returns what the cache then holds for the handle, so that
    asking again returns the same result without a further [result()] and
    without any change of the backend. *)
Theorem get_result_cached self self' handle r :
  get_result handle self = (Ok r, self') →
  _cache self' !! handle ≫= entry_result = Some r ∧
  get_result handle self' = (Ok r, self').
Proof.
  intros Hget%get_result_Ok_entry. split; [done|]. by apply get_result_hit.
Qed.



End exec.

(** C1 fails on a batch whose circuits differ in qubit count.  Two circuits,
    on 2 and on 3 qubits, are submitted with the same shot count and form one
    job.  [get_result] on the first handle calls [result()], stores the first
    result, rebuilds the second handle with the qubit count of the first, and
    raises [KeyError]: the entry of the second handle stays without result.
    [get_result] on the second handle raises [KeyError] before it stores
    anything, and calls [result()] again each time it is asked. *)
Lemma get_result_fails_on_mixed_batch :
  let submitted :=
    Sample.process_circuits [(2, "bell"); (3, "ghz")] (NShots_all (Some 100))
      true false None Sample.ideal_backend in
  let h0 : ResultHandle := ("job-0", 0, 2, "null") in
  let h1 : ResultHandle := ("job-0", 1, 3, "null") in
  let first := Sample.get_result h0 submitted.2 in
  let second := Sample.get_result h1 submitted.2 in
  submitted.1 = Ok [Some h0; Some h1] ∧
  first.1 = Raise KeyError ∧
  _cache first.2 !! h0 ≫= entry_result = Some "result of bell" ∧
  _cache first.2 !! h1 ≫= entry_result = None ∧
  second.1 = Raise KeyError ∧
  _cache second.2 !! h1 ≫= entry_result = None ∧
  result_calls (_qiskit_backend second.2) = 1 ∧
  (Sample.get_result h1 second.2).1 = Raise KeyError ∧
  result_calls (_qiskit_backend (Sample.get_result h1 second.2).2) = 2.
Proof. split_and!; by vm_compute. Qed.

Lemma unknown_handle_not_run_witness :
  Sample.get_result ("job-7", 0, 2, "null") Sample.ideal_backend
  = (Raise (CircuitNotRunError ("job-7", 0, 2, "null")), Sample.ideal_backend).
Proof. apply unknown_handle_not_run. reflexivity. Defined.

Lemma expectation_value_guards_witness :
  get_pauli_expectation_value (Complex := Q) fst (λ c _, c) (λ _ _, true)
    (λ c : Sample.Circuit, map (λ i, mkQubit "q" [i]) (seq 0 c.1))
    (λ qc _, qc) (λ _, 1%Q)
    (2, "bell") {[mkQubit "q" [0] := Pauli_Z]} true Sample.noisy_backend
  = (Raise (RuntimeError msg_snapshot_noise), Sample.noisy_backend).
Proof.
  apply (expectation_value_guards (Complex := Q) fst (λ c _, c) (λ _ _, true)
           (λ c : Sample.Circuit, map (λ i, mkQubit "q" [i]) (seq 0 c.1))
           (λ qc _, qc) (λ _, 1%Q) Sample.noisy_backend (2, "bell")
           {[mkQubit "q" [0] := Pauli_Z]} [] true).
  by eexists.
Defined.

End ExecFacts.

(** ** The helpers of the module *)

Module HelperFacts.
Import Aer.

(** The first element that a filter keeps. *)
Lemma filter_head {A} (P : A → Prop) `{∀ x, Decision (P x)} (l : list A) b rest :
  filter P l = b :: rest →
  ∃ pre post, l = pre ++ b :: post ∧ Forall (λ x, ¬ P x) pre ∧ P b.
Proof.
  induction l as [|a l IH]; [done|].
  rewrite filter_cons. destruct (decide (P a)) as [Ha|Ha].
  - intros [= -> <-]. by exists [], l.
  - intros (pre & post & -> & Hpre & Hb)%IH.
    exists (a :: pre), post. split_and!; [done | by constructor | done].
Qed.

Lemma filter_nil_Forall {A} (P : A → Prop) `{∀ x, Decision (P x)} (l : list A) :
  filter P l = [] → Forall (λ x, ¬ P x) l.
Proof.
  induction l as [|a l IH]; [by constructor|].
  rewrite filter_cons. destruct (decide (P a)); [done|].
  intros Hl. constructor; [done | by apply IH].
Qed.

(** X1: [qiskit_aer_backend] returns the first simulator of the list that has the
    name asked for, and raises [ValueError] exactly when no simulator has it. *)
Theorem qiskit_aer_backend_first backends backend_name :
  match qiskit_aer_backend backends backend_name with
  | Ok b =>
    qb_name b = backend_name ∧
    ∃ pre post, backends = pre ++ b :: post ∧
                Forall (λ b', qb_name b' ≠ backend_name) pre
  | Raise e =>
    (∃ msg, e = ValueError msg) ∧
    Forall (λ b', qb_name b' ≠ backend_name) backends
  end.
Proof.
  unfold qiskit_aer_backend.
  destruct (filter _ backends) as [|b rest] eqn:Hf.
  - split; [by eexists | by apply filter_nil_Forall in Hf].
  - apply filter_head in Hf as (pre & post & -> & Hpre & Hb). eauto.
Qed.

(** X2: the gate set read off a simulator holds the operation of every basis gate
    that the table knows, the five operations that are always added, the
    three unitary boxes when ["unitary"] is a basis gate, and nothing else. *)
Theorem tket_gate_set_members tbl qb (o : OpType) :
  o ∈ _tket_gate_set_from_qiskit_backend tbl qb ↔
  (∃ gate_str, gate_str ∈ basis_gates qb ∧ tbl gate_str = Some o) ∨
  o ∈ [Op.Barrier; Op.Reset; Op.Measure; Op.Conditional; Op.TK1] ∨
  ("unitary" ∈ basis_gates qb ∧
   o ∈ [Op.Unitary1qBox; Op.Unitary2qBox; Op.Unitary3qBox]).
Proof.
  unfold _tket_gate_set_from_qiskit_backend.
  assert (o ∈ (list_to_set (omap tbl (basis_gates qb)) : gset OpType) ↔
          ∃ gate_str, gate_str ∈ basis_gates qb ∧ tbl gate_str = Some o) as Htbl.
  { rewrite elem_of_list_to_set, list_elem_of_omap. naive_solver. }
  case_decide as Hu.
  - rewrite !elem_of_union, Htbl, !elem_of_singleton, !elem_of_cons, elem_of_nil.
    tauto.
  - rewrite !elem_of_union, Htbl, !elem_of_singleton, !elem_of_cons, elem_of_nil.
    tauto.
Qed.

Lemma default_q_index_Ok q i :
  _default_q_index q = Ok i ↔ q = mkQubit "q" [i].
Proof.
  unfold _default_q_index. destruct q as [reg [|j [|??]]]; simpl; [naive_solver| |naive_solver].
  case_decide; naive_solver.
Qed.

Lemma default_in_range_cases q n :
  (∃ i, q = mkQubit "q" [i] ∧ i < n) ∨ (∀ i, q = mkQubit "q" [i] → n ≤ i).
Proof.
  destruct (_default_q_index q) as [j|ex] eqn:Hq.
  - apply default_q_index_Ok in Hq as ->.
    destruct (decide (j < n)); [left; eauto | right].
    intros i [= <-]. lia.
  - right. intros i ->. by rewrite (proj2 (default_q_index_Ok _ i)) in Hq.
Qed.

(** The loop of [_sparse_to_zx_tup] on items with distinct qubits, all of the
    default register and in range: position [i] of the arrays holds the bits
    of the Pauli of qubit [i], or what it held when the qubit is absent. *)
Lemma zx_items_spec (items : list (Qubit * Pauli)) :
  ∀ z x,
    length z = length x →
    NoDup items.*1 →
    (∀ q p, (q, p) ∈ items → ∃ i, q = mkQubit "q" [i] ∧ i < length z) →
    ∃ z' x',
      zx_items items z x = Ok (z', x') ∧
      length z' = length z ∧ length x' = length x ∧
      ∀ i, z' !! i = match (list_to_map items : gmap Qubit Pauli) !! mkQubit "q" [i] with
                     | Some p => if decide (i < length z)
                                 then Some (bool_decide (p = Pauli_Z ∨ p = Pauli_Y))
                                 else None
                     | None => z !! i
                     end ∧
           x' !! i = match (list_to_map items : gmap Qubit Pauli) !! mkQubit "q" [i] with
                     | Some p => if decide (i < length z)
                                 then Some (bool_decide (p = Pauli_X ∨ p = Pauli_Y))
                                 else None
                     | None => x !! i
                     end.
Proof.
  induction items as [|[q p] items IH]; intros z x Hlen Hnd Hok.
  - exists z, x. simpl. split_and!; [done..|]. intros i. by rewrite lookup_empty.
  - destruct (Hok q p) as (j & -> & Hj); [by left|].
    apply NoDup_cons in Hnd as [Hq Hnd]. simpl in Hq.
    simpl zx_items. unfold _default_q_index. simpl.
    rewrite decide_True by done.
    destruct (IH (<[j := bool_decide (p = Pauli_Z ∨ p = Pauli_Y)]> z)
                 (<[j := bool_decide (p = Pauli_X ∨ p = Pauli_Y)]> x))
      as (z' & x' & -> & Hz & Hx & Hbits).
    { by rewrite !length_insert. }
    { done. }
    { intros q' p' Hin. rewrite length_insert. apply (Hok q' p'). by right. }
    rewrite length_insert in Hz, Hx.
    exists z', x'. split_and!; [done..|].
    intros i. destruct (Hbits i) as [Hzi Hxi]. rewrite Hzi, Hxi.
    rewrite !length_insert. simpl.
    destruct (decide (i = j)) as [->|Hij].
    + rewrite (not_elem_of_list_to_map_1 items (mkQubit "q" [j])) by done.
      rewrite lookup_insert_eq, !decide_True by done.
      by rewrite !list_lookup_insert_eq by lia.
    + rewrite lookup_insert_ne by naive_solver.
      destruct (list_to_map items !! _); [done|].
      by rewrite !list_lookup_insert_ne by done.
Qed.

(** The loop raises as soon as an item is not in range of the default
    register. *)
Lemma zx_items_bad (items : list (Qubit * Pauli)) :
  ∀ z x q p,
    (q, p) ∈ items → (∀ i, q = mkQubit "q" [i] → length z ≤ i) →
    is_Raise (zx_items items z x).
Proof.
  induction items as [|[q' p'] items IH]; intros z x q p Hin Hbad.
  - by apply elem_of_nil in Hin.
  - simpl. destruct (_default_q_index q') as [i|ex] eqn:Hq'; simpl; [|by eexists].
    case_decide as Hi; [|by eexists].
    apply elem_of_cons in Hin as [[= <- <-]|Hin].
    + apply default_q_index_Ok in Hq'. specialize (Hbad i Hq'). lia.
    + apply (IH _ _ q p Hin). intros j Hj. rewrite length_insert. by apply Hbad.
Qed.

(** X3: [_sparse_to_zx_tup] completes exactly when every qubit of the Pauli string
    is a qubit [q[i]] of the default register with [i < n_qubits]; the arrays
    that it then returns have length [n_qubits], with [z[i]] set for a Z or Y
    on qubit [i], [x[i]] set for an X or Y, and both cleared for a qubit that
    the string does not mention. *)
Theorem sparse_to_zx_tup_spec (pauli : QubitPauliString) n_qubits :
  (is_Ok (_sparse_to_zx_tup pauli n_qubits) ↔
   ∀ q, q ∈ dom pauli → ∃ i, q = mkQubit "q" [i] ∧ i < n_qubits) ∧
  (∀ z x, _sparse_to_zx_tup pauli n_qubits = Ok (z, x) →
     length z = n_qubits ∧ length x = n_qubits ∧
     ∀ i, i < n_qubits →
       z !! i = Some (bool_decide (pauli !! mkQubit "q" [i] = Some Pauli_Z ∨
                                   pauli !! mkQubit "q" [i] = Some Pauli_Y)) ∧
       x !! i = Some (bool_decide (pauli !! mkQubit "q" [i] = Some Pauli_X ∨
                                   pauli !! mkQubit "q" [i] = Some Pauli_Y))).
Proof.
  unfold _sparse_to_zx_tup, QubitPauliString in *.
  assert ((∀ q, q ∈ dom pauli → ∃ i, q = mkQubit "q" [i] ∧ i < n_qubits) →
          ∃ z x, zx_items (map_to_list pauli) (replicate n_qubits false)
                   (replicate n_qubits false) = Ok (z, x) ∧
                 length z = n_qubits ∧ length x = n_qubits ∧
                 ∀ i, i < n_qubits →
                   z !! i = Some (bool_decide (pauli !! mkQubit "q" [i] = Some Pauli_Z ∨
                                               pauli !! mkQubit "q" [i] = Some Pauli_Y)) ∧
                   x !! i = Some (bool_decide (pauli !! mkQubit "q" [i] = Some Pauli_X ∨
                                               pauli !! mkQubit "q" [i] = Some Pauli_Y)))
    as Hgood.
  { intros Hdom.
    destruct (zx_items_spec (map_to_list pauli) (replicate n_qubits false)
                (replicate n_qubits false)) as (z & x & Hzx & Hz & Hx & Hbits).
    { by rewrite !length_replicate. }
    { apply NoDup_fst_map_to_list. }
    { intros q p Hin%elem_of_map_to_list. rewrite length_replicate.
      apply Hdom, elem_of_dom. by eexists. }
    rewrite length_replicate in Hz, Hx.
    exists z, x. split_and!; [done..|]. intros i Hi.
    destruct (Hbits i) as [-> ->]. rewrite list_to_map_to_list, length_replicate.
    destruct (pauli !! mkQubit "q" [i]) as [p|].
    - rewrite !decide_True by done. split; f_equal; apply bool_decide_ext; naive_solver.
    - rewrite !lookup_replicate_2 by done.
      split; f_equal; symmetry; apply bool_decide_eq_false; naive_solver. }
  split.
  - split.
    + intros [[z x] Hzx] q [p Hp]%elem_of_dom.
      destruct (default_in_range_cases q n_qubits) as [|Hbad]; [done|].
      destruct (zx_items_bad (map_to_list pauli) (replicate n_qubits false)
                  (replicate n_qubits false) q p) as [ex Hex].
      { by apply elem_of_map_to_list. }
      { intros i Hi. rewrite length_replicate. by apply Hbad. }
      congruence.
    + intros Hdom. destruct (Hgood Hdom) as (z & x & Hzx & _). by exists (z, x).
  - intros z x Hzx.
    assert (∀ q, q ∈ dom pauli → ∃ i, q = mkQubit "q" [i] ∧ i < n_qubits) as Hdom.
    { intros q [p Hp]%elem_of_dom.
      destruct (default_in_range_cases q n_qubits) as [|Hbad]; [done|].
      destruct (zx_items_bad (map_to_list pauli) (replicate n_qubits false)
                  (replicate n_qubits false) q p) as [ex Hex].
      { by apply elem_of_map_to_list. }
      { intros i Hi. rewrite length_replicate. by apply Hbad. }
      congruence. }
    destruct (Hgood Hdom) as (z' & x' & Hzx' & Hrest).
    rewrite Hzx in Hzx'. by simplify_eq.
Qed.





End HelperFacts.

(** ** What the characterisation keeps *)

Module NoiseInvariants.
Import Noise NoiseFacts.

Section invariants.
Variable tbl : string → option OpType.
Implicit Types (e : ErrorEvent) (es : list ErrorEvent) (st : LoopState).

(** A completed dict comprehension has the keys of the dict. *)
Lemma dict_comprehension_dom `{Countable K} {A B} (f : A → result B)
    (d : gmap K A) (m : gmap K B) :
  dict_comprehension f d = Ok m → dom m = dom d.
Proof.
  intros Hm. apply set_eq. intros k. rewrite !elem_of_dom.
  pose proof (dict_comprehension_Ok f d m Hm k) as Hk.
  destruct (d !! k) as [a|].
  - destruct Hk as (b & _ & ->). split; by eexists.
  - rewrite Hk. split; by intros [? ?].
Qed.

Lemma step_node_readout_dom e st st' :
  process_error tbl e st = Ok st' →
  dom (st_node_errors st') = node_qubits [e] ∪ dom (st_node_errors st) ∧
  dom (st_readout_errors st') = readout_qubits [e] ∪ dom (st_readout_errors st).
Proof.
  intros Hp. apply process_error_Ok in Hp. unfold node_qubits, readout_qubits. simpl.
  destruct Hp as [q ??? Ht ? ? ? [(?&?&?&Hb&?&->)|(?&Hb&->)]
                 |??????? Ht ? ? Hb ->|qs Ht [??] ->];
    rewrite Ht; simpl.
  - rewrite Hb, dd_update_dom. split; set_solver+.
  - rewrite Hb, dom_insert_L. split; set_solver+.
  - split; set_solver+.
  - destruct qs as [|? [|??]]; simpl in *; [split; set_solver+ | lia | split; set_solver+].
Qed.

Lemma process_errors_node_readout_dom es st st' :
  process_errors tbl es st = Ok st' →
  dom (st_node_errors st') = node_qubits es ∪ dom (st_node_errors st) ∧
  dom (st_readout_errors st') = readout_qubits es ∪ dom (st_readout_errors st).
Proof.
  revert st. induction es as [|e es IH]; intros st Hp.
  - simpl in Hp. simplify_eq. unfold node_qubits, readout_qubits. simpl.
    split; set_solver+.
  - apply process_errors_cons_Ok in Hp as (st1 & H1 & Hp).
    destruct (IH _ Hp) as [-> ->].
    destruct (step_node_readout_dom _ _ _ H1) as [-> ->].
    unfold node_qubits, readout_qubits. simpl. split; set_solver+.
Qed.

(** X6: in a completed characterisation the node errors are keyed by the qubits
    that have a single-qubit quantum error, the readout errors by the qubits
    that have a single-qubit readout error, the edge errors by the target
    pairs of the two-qubit errors and their reverses; each averaged map has
    the keys of the map that it averages. *)
Theorem error_map_keys nm gate_set c :
  _process_noise_model tbl nm gate_set = Ok c →
  ∃ n l r avn avl avr,
    node_errors c = Some n ∧ edge_errors c = Some l ∧ readout_errors c = Some r ∧
    averaged_node_errors c = Some avn ∧ averaged_edge_errors c = Some avl ∧
    averaged_readout_errors c = Some avr ∧
    dom n = node_qubits (errors_of nm) ∧
    dom r = readout_qubits (errors_of nm) ∧
    dom l = list_to_set (link_pairs (errors_of nm))
            ∪ list_to_set (prod_swap <$> link_pairs (errors_of nm)) ∧
    dom avn = dom n ∧ dom avl = dom l ∧ dom avr = dom r.
Proof.
  intros Hp.
  apply process_noise_model_Ok in Hp
    as (st & avn & avl & avr & _ & Hst & Hn & Hl & Hr & ->).
  exists (st_node_errors st), (st_link_errors st), (st_readout_errors st), avn, avl, avr.
  destruct (process_errors_node_readout_dom _ _ _ Hst) as [Hdn Hdr].
  apply process_errors_init in Hst as (_ & _ & _ & Hdl).
  unfold init_state in Hdn, Hdr. cbn [st_node_errors st_readout_errors] in Hdn, Hdr.
  rewrite dom_empty_L, union_empty_r_L in Hdn. rewrite dom_empty_L, union_empty_r_L in Hdr.
  split_and!; try done; by eapply dict_comprehension_dom.
Qed.

(** *** The reverse direction of a link *)

Lemma fidelity_bounds (f : Q) :
  (0 <= f)%Q → (f <= 1)%Q →
  (1 - f <= 1 - f ^ 2)%Q ∧ (0 <= 1 - f)%Q ∧ (1 - f ^ 2 <= 1)%Q.
Proof. intros. change (f ^ 2)%Q with (f * f)%Q. split_and!; nra. Qed.

Lemma step_reverse_not_better e st st' q0 q1 :
  process_error tbl e st = Ok st' →
  targets e ≠ Some [q1; q0] →
  (∀ f, targets e = Some [q0; q1] → first_probability e = Some f →
        (0 <= f)%Q ∧ (f <= 1)%Q) →
  reverse_not_better st q0 q1 → reverse_not_better st' q0 q1.
Proof.
  intros Hp Hrev Hf Hinv. apply process_error_Ok in Hp.
  destruct Hp as [q ??? Ht ? ? ? [(?&?&?&?&?&->)|(?&?&->)]
                 |a b name o f instr ps Ht Hn Ho Hb ->|qs Ht [??] ->]; try done.
  intros k x. simpl.
  destruct (decide ((a, b) = (q0, q1))) as [[= -> ->]|Hab].
  - assert (q0 ≠ q1) as Hne by (intros ->; by rewrite Ht in Hrev).
    assert ((q1, q0) ≠ (q0, q1)) as Hne' by (intros [= -> _]; done).
    destruct (decide (o = k)) as [->|Hok].
    + rewrite entry_dd_update, entry_dd_update_ne, entry_dd_update by (by left).
      intros [= <-]. eexists. split; [done|].
      destruct (Hf f Ht) as [H0 H1]; [unfold first_probability; by rewrite Hb|].
      by apply fidelity_bounds.
    + rewrite !entry_dd_update_ne by (by right). apply Hinv.
  - assert ((b, a) ≠ (q0, q1)) as Hba.
    { intros [= -> ->]. by rewrite Ht in Hrev. }
    assert ((a, b) ≠ (q1, q0) ∧ (b, a) ≠ (q1, q0)) as [Hab' Hba'].
    { split; intros [= -> ->]; [by rewrite Ht in Hrev | done]. }
    rewrite !entry_dd_update_ne by (by left). apply Hinv.
Qed.

(** X7: the reverse direction of a link is never recorded as better than the
    measured one: when no error targets (q1, q0) and the two-qubit errors on
    (q0, q1) have a first probability between 0 and 1, every kind with an
    edge error [a] on (q0, q1) has an edge error [b] on (q1, q0), and
    [0 ≤ a ≤ b ≤ 1]. *)
Theorem reverse_direction_not_better nm gate_set c q0 q1 :
  _process_noise_model tbl nm gate_set = Ok c →
  (∀ e, e ∈ errors_of nm → targets e ≠ Some [q1; q0]) →
  (∀ e f, e ∈ errors_of nm → targets e = Some [q0; q1] →
          first_probability e = Some f → (0 <= f)%Q ∧ (f <= 1)%Q) →
  ∃ m, edge_errors c = Some m ∧
       ∀ k a, entry m (q0, q1) k = Some a →
         ∃ b, entry m (q1, q0) k = Some b ∧ (a <= b)%Q ∧ (0 <= a)%Q ∧ (b <= 1)%Q.
Proof.
  intros Hp Hrev Hf.
  apply process_noise_model_Ok in Hp as (st & avn & avl & avr & _ & Hst & _ & _ & _ & ->).
  exists (st_link_errors st). split; [done|].
  change (reverse_not_better st q0 q1).
  assert (reverse_not_better init_state q0 q1) as Hinit by (by intros k a).
  revert Hst Hrev Hf Hinit. generalize init_state. generalize (errors_of nm).
  induction l as [|e es IH]; intros st0 Hst Hrev Hf Hinit.
  - by simplify_eq/=.
  - apply process_errors_cons_Ok in Hst as (st1 & H1 & Hst).
    apply (IH st1 Hst).
    + intros e' He'. apply Hrev. by right.
    + intros e' f He'. apply Hf. by right.
    + eapply step_reverse_not_better; [exact H1 | | | exact Hinit].
      * apply Hrev. by left.
      * intros f. apply Hf. by left.
Qed.

(** *** The generic error logs *)

Lemma log_of_cons qs e es : log_of qs (e :: es) = log_of qs [e] ++ log_of qs es.
Proof.
  unfold log_of. simpl.
  by destruct (if decide (targets e = Some qs) then _ else _).
Qed.

Lemma step_logs e st st' :
  process_error tbl e st = Ok st' →
  log_extends qubit_key [e] (st_generic_single_qerrors_dict st)
    (st_generic_single_qerrors_dict st') ∧
  log_extends pair_key [e] (st_generic_2q_qerrors_dict st)
    (st_generic_2q_qerrors_dict st').
Proof.
  intros Hp. apply process_error_Ok in Hp. unfold log_extends, log_of, qubit_key, pair_key.
  destruct Hp as [q ??? Ht ? ? ? [(instr&ps&?&Hb&?&->)|(?&Hb&->)]
                 |a b name o f instr ps Ht Hn Ho Hb ->|qs Ht [??] ->];
    simpl; rewrite Ht.
  - split.
    + intros k. destruct (decide (Some [q] = Some [k])) as [[= <-]|Hk]; simpl.
      * rewrite Hb. unfold dd_append. by rewrite lookup_insert_eq.
      * unfold dd_append. rewrite lookup_insert_ne; [done|]. by intros <-.
    + intros k. by rewrite decide_False.
  - split; intros k; [|by rewrite decide_False].
    destruct (decide _); [by rewrite Hb | done].
  - split; intros k; [by rewrite decide_False|].
    destruct (decide (Some [a; b] = Some [k.1; k.2])) as [Hk|Hk]; simpl.
    + assert (k = (a, b)) as -> by (destruct k; by simplify_eq/=).
      rewrite Hb. unfold dd_append. by rewrite lookup_insert_eq.
    + unfold dd_append. rewrite lookup_insert_ne; [done|]. by intros <-.
  - split; intros k; rewrite decide_False; try done.
    + intros [= ->]. simpl in *. lia.
    + intros [= ->]. simpl in *. lia.
Qed.

Lemma log_extends_trans {K} `{Countable K} (key : K → list nat) e es
    (g g1 g' : gmap K (list (Instructions * Probabilities))) :
  log_extends key [e] g g1 → log_extends key es g1 g' →
  log_extends key (e :: es) g g'.
Proof.
  intros H1 H2 k. rewrite (log_of_cons (key k) e es), (H2 k), (H1 k).
  destruct (log_of (key k) [e]) as [|x l], (log_of (key k) es) as [|y l'];
    simpl; rewrite ?app_nil_r; try done.
  by rewrite <-app_assoc.
Qed.

Lemma process_errors_logs es st st' :
  process_errors tbl es st = Ok st' →
  log_extends qubit_key es (st_generic_single_qerrors_dict st)
    (st_generic_single_qerrors_dict st') ∧
  log_extends pair_key es (st_generic_2q_qerrors_dict st)
    (st_generic_2q_qerrors_dict st').
Proof.
  revert st. induction es as [|e es IH]; intros st Hp.
  - simpl in Hp. simplify_eq. by split; intros k.
  - apply process_errors_cons_Ok in Hp as (st1 & H1 & Hp).
    destruct (IH _ Hp) as [Hs Hl], (step_logs _ _ _ H1) as [Hs1 Hl1].
    split; by eapply log_extends_trans.
Qed.

(** X8: the generic error logs lose nothing: a qubit (a pair of qubits, in the
    order of the targets) is listed exactly when it has a quantum error, once,
    with the instructions and probabilities of all its quantum errors in the
    order of the noise model.  Readout errors are not logged, and a two-qubit
    error is logged for its forward pair only. *)
Theorem generic_logs_complete nm gate_set c :
  _process_noise_model tbl nm gate_set = Ok c →
  ∃ g, generic_q_errors c = Some g ∧
       NoDup (GenericOneQubitQErrors g).*1 ∧ NoDup (GenericTwoQubitQErrors g).*1 ∧
       (∀ q log, (q, log) ∈ GenericOneQubitQErrors g ↔
                 log ≠ [] ∧ log = log_of [q] (errors_of nm)) ∧
       (∀ q0 q1 log, ((q0, q1), log) ∈ GenericTwoQubitQErrors g ↔
                     log ≠ [] ∧ log = log_of [q0; q1] (errors_of nm)).
Proof.
  intros Hp.
  apply process_noise_model_Ok in Hp as (st & avn & avl & avr & _ & Hst & _ & _ & _ & ->).
  eexists. split; [reflexivity|]. simpl.
  destruct (process_errors_logs _ _ _ Hst) as [Hs Hl].
  split_and!; [apply NoDup_fst_map_to_list.. | |].
  - intros q log. rewrite elem_of_map_to_list, (Hs q). unfold qubit_key. simpl.
    rewrite lookup_empty.
    destruct (log_of [q] (errors_of nm)); simpl; naive_solver.
  - intros q0 q1 log. rewrite elem_of_map_to_list, (Hl (q0, q1)). unfold pair_key. simpl.
    rewrite lookup_empty.
    destruct (log_of [q0; q1] (errors_of nm)); simpl; naive_solver.
Qed.

End invariants.

Lemma reverse_direction_not_better_witness :
  let nm := Sample.noise_model
              [Sample.quantum_error "cx" [0; 1] (99 # 100);
               Sample.quantum_error "cz" [0; 1] (9 # 10)] in
  ∃ c m, _process_noise_model Sample.table nm Sample.gates = Ok c ∧
         edge_errors c = Some m ∧
         ∀ k a, entry m (0, 1) k = Some a →
           ∃ b, entry m (1, 0) k = Some b ∧ (a <= b)%Q.
Proof.
  intros nm.
  assert (errors_of nm = [Sample.quantum_error "cx" [0; 1] (99 # 100);
                          Sample.quantum_error "cz" [0; 1] (9 # 10)]) as Hes
    by reflexivity.
  destruct (_process_noise_model Sample.table nm Sample.gates) as [c|] eqn:Hc;
    [|by vm_compute in Hc].
  destruct (reverse_direction_not_better Sample.table nm Sample.gates c 0 1 Hc)
    as (m & Hm & Hle).
  { intros e He. rewrite Hes in He.
    apply elem_of_cons in He as [->|He]; [by intros [=]|].
    apply elem_of_cons in He as [->|He]; [by intros [=]|]. by apply elem_of_nil in He. }
  { intros e f He. rewrite Hes in He.
    apply elem_of_cons in He as [->|He]; [intros _ [= <-]; split; by intros [=]|].
    apply elem_of_cons in He as [->|He]; [intros _ [= <-]; split; by intros [=]|].
    by apply elem_of_nil in He. }
  exists c, m. split_and!; [done | done |].
  intros k a Ha. destruct (Hle k a Ha) as (b & Hb & Hab & _). eauto.
Defined.

Lemma generic_logs_complete_witness :
  let nm := Sample.noise_model
              [Sample.quantum_error "cx" [0; 1] (99 # 100);
               Sample.quantum_error "cz" [0; 1] (9 # 10)] in
  ∃ c g, _process_noise_model Sample.table nm Sample.gates = Ok c ∧
         generic_q_errors c = Some g ∧
         ((0, 1), log_of [0; 1] (errors_of nm)) ∈ GenericTwoQubitQErrors g ∧
         length (log_of [0; 1] (errors_of nm)) = 2.
Proof.
  intros nm.
  destruct (_process_noise_model Sample.table nm Sample.gates) as [c|] eqn:Hc;
    [|by vm_compute in Hc].
  destruct (generic_logs_complete Sample.table nm Sample.gates c Hc)
    as (g & Hg & _ & _ & _ & Hl).
  exists c, g. split_and!; [done | done | | by vm_compute].
  apply Hl. split; [by vm_compute | done].
Defined.

Lemma process_noise_model_total_witness :
  is_Ok (_process_noise_model Sample.table
           (Sample.noise_model
              [Sample.quantum_error "h" [0] (99 # 100);
               Sample.readout_error 1 (1 # 50) (1 # 20);
               Sample.quantum_error "cx" [0; 1] (9 # 10)])
           Sample.gates).
Proof.
  eapply process_noise_model_total; [by_compute | reflexivity |].
  assert (∀ es, errors_of (Sample.noise_model es)
                = filter (λ e, is_qerror_or_roerror e = true) es) as ->.
  { intros es. unfold errors_of, Sample.noise_model. cbn [to_dict].
    by rewrite lookup_singleton_eq. }
  rewrite !filter_cons_True by reflexivity. rewrite filter_nil.
  apply Forall_cons_2;
    [|apply Forall_cons_2; [|apply Forall_cons_2; [|apply Forall_nil_2]]].
  - split; [|exact I].
    eexists. split; [reflexivity|]. eexists. vm_compute. reflexivity.
  - split; [|exact I].
    eexists. split; [reflexivity|]. eexists. vm_compute. reflexivity.
  - split; [|exact I].
    eexists. split; [reflexivity|]. eexists. vm_compute. reflexivity.
Defined.

Lemma error_map_keys_witness :
  let nm := Sample.noise_model
              [Sample.quantum_error "h" [0] (99 # 100);
               Sample.readout_error 1 (1 # 50) (1 # 20)] in
  ∃ c avn, _process_noise_model Sample.table nm Sample.gates = Ok c ∧
           averaged_node_errors c = Some avn ∧ dom avn = {[0]}.
Proof.
  intros nm.
  destruct (_process_noise_model Sample.table nm Sample.gates) as [c|] eqn:Hc;
    [|by vm_compute in Hc].
  destruct (error_map_keys Sample.table nm Sample.gates c Hc)
    as (n & l & r & avn & avl & avr & _ & _ & _ & Havn & _ & _ & Hn & _ & _ & Hdn & _).
  exists c, avn. split_and!; [done | done |].
  rewrite Hdn, Hn. by_compute.
Defined.

End NoiseInvariants.

(** ** Constructed backends *)

Module ConstructedFacts.
Import Noise Aer.

Lemma nodes_bool (a : Architecture) : list_bool (nodes a) = list_bool (coupling a).
Proof.
  unfold nodes. destruct (coupling a) as [|p l]; [reflexivity|].
  destruct (remove_dups _) as [|x r] eqn:Hr; [|reflexivity].
  assert (p.1 ∈ remove_dups (flat_map (λ p, [p.1; p.2]) (p :: l))) as Hin
    by apply elem_of_remove_dups, list_elem_of_here.
  rewrite Hr in Hin. by apply elem_of_nil in Hin.
Qed.

Section constructed.
Context {BackendResult CrosstalkParams : Type}.
Variable tbl : string → option OpType.
Variable backends : list QiskitAerBackend.
Variable crosstalk_noise_model : CrosstalkParams → NoiseModel.

#[local] Notation Backend :=
  (AerBaseBackend (BackendResult := BackendResult) (CrosstalkParams := CrosstalkParams)).
#[local] Notation AerBackend :=
  (AerBackend (BackendResult := BackendResult) (CrosstalkParams := CrosstalkParams)
     tbl backends crosstalk_noise_model).
#[local] Notation AerDensityMatrixBackend :=
  (AerDensityMatrixBackend (BackendResult := BackendResult)
     (CrosstalkParams := CrosstalkParams) tbl backends).
#[local] Notation constructed := (constructed tbl backends crosstalk_noise_model).

Implicit Types (self b : Backend).

(** What [AerBackend] returns when it is given no crosstalk parameters. *)
Lemma AerBackend_Ok noise_model simulation_method n_qubits b :
  AerBackend noise_model simulation_method None n_qubits = Ok b →
  ∃ qb c,
    qiskit_aer_backend backends "aer_simulator" = Ok qb ∧
    characterise tbl noise_model
      (_tket_gate_set_from_qiskit_backend tbl (set_method simulation_method qb)
       ∪ _allowed_special_gates) = Ok c ∧
    _noise_model b = _map_trivial_noise_model_to_none noise_model ∧
    _has_arch b = list_bool (coupling (Noise.architecture c)) ∧
    architecture (_backend_info b)
    = (if list_bool (coupling (Noise.architecture c))
       then Arch (Noise.architecture c) else FullyConnected n_qubits) ∧
    _supports_expectation b = true ∧
    _required_predicates b
    = [NoSymbolsPredicate; GateSetPredicate (gate_set (_backend_info b))]
      ++ (if list_bool (coupling (Noise.architecture c))
          then [ConnectivityPredicate (Arch (Noise.architecture c))] else []).
Proof.
  unfold Aer.AerBackend. intros Hb.
  apply bind_Ok in Hb as (qb & Hqb & Hb). cbv beta zeta in Hb.
  apply bind_Ok in Hb as (c & Hc & Hb). cbv beta zeta in Hb.
  injection Hb as <-. exists qb, c.
  cbn [_noise_model _has_arch _backend_info architecture _supports_expectation
       _required_predicates gate_set].
  unfold architecture_bool, AerBackend_required_predicates.
  cbn [andb architecture gate_set]. rewrite nodes_bool.
  split_and!; try done.
  by destruct (list_bool (coupling (Noise.architecture c))).
Qed.

Lemma AerDensityMatrixBackend_Ok noise_model n_qubits b :
  AerDensityMatrixBackend noise_model n_qubits = Ok b →
  ∃ qb c,
    qiskit_aer_backend backends "aer_simulator_density_matrix" = Ok qb ∧
    characterise tbl noise_model
      (_tket_gate_set_from_qiskit_backend tbl qb ∪ _allowed_special_gates) = Ok c ∧
    _noise_model b = _map_trivial_noise_model_to_none noise_model ∧
    _has_arch b = list_bool (coupling (Noise.architecture c)) ∧
    architecture (_backend_info b)
    = (if list_bool (coupling (Noise.architecture c))
       then Arch (Noise.architecture c) else FullyConnected n_qubits) ∧
    _supports_expectation b = true ∧
    _required_predicates b = [GateSetPredicate (gate_set (_backend_info b))].
Proof.
  unfold Aer.AerDensityMatrixBackend. intros Hb.
  apply bind_Ok in Hb as (qb & Hqb & Hb). cbv beta zeta in Hb.
  apply bind_Ok in Hb as (c & Hc & Hb). cbv beta zeta in Hb.
  injection Hb as <-. exists qb, c.
  cbn [_noise_model _has_arch _backend_info architecture _supports_expectation
       _required_predicates gate_set].
  unfold architecture_bool. cbn [andb]. rewrite nodes_bool.
  split_and!; try done.
  by destruct (list_bool (coupling (Noise.architecture c))).
Qed.

(** A backend with [_has_arch] set holds an architecture with couplings. *)
Lemma constructed_arch self :
  constructed self →
  if _has_arch self
  then ∃ arch, architecture (_backend_info self) = Arch arch ∧ coupling arch ≠ []
  else True.
Proof.
  intros [(nm & sm & [params|] & n & Hb)|[(n & Hb)|[(n & Hb)|(nm & n & Hb)]]].
  - unfold Aer.AerBackend in Hb. apply bind_Ok in Hb as (qb & _ & Hb).
    cbv beta zeta in Hb. by injection Hb as <-.
  - apply AerBackend_Ok in Hb as (qb & c & _ & _ & _ & -> & Harch & _).
    destruct (coupling (Noise.architecture c)) eqn:Hc; [done|].
    simpl in *. exists (Noise.architecture c). by rewrite Hc.
  - unfold AerStateBackend in Hb. apply bind_Ok in Hb as (qb & _ & Hb).
    cbv beta zeta in Hb. by injection Hb as <-.
  - unfold AerUnitaryBackend in Hb. apply bind_Ok in Hb as (qb & _ & Hb).
    cbv beta zeta in Hb. by injection Hb as <-.
  - apply AerDensityMatrixBackend_Ok in Hb as (qb & c & _ & _ & _ & -> & Harch & _).
    destruct (coupling (Noise.architecture c)) eqn:Hc; [done|].
    simpl in *. exists (Noise.architecture c). by rewrite Hc.
Qed.

(** X10: on a backend that a constructor returned, [default_compilation_pass]
    never fails to read the couplings: it returns a sequence that starts with
    [DecomposeBoxes] for each optimisation level from 0 to 3, and raises
    [AssertionError] for any other level.  [_has_arch] is set only together
    with an architecture that has couplings. *)
Theorem constructed_backend_compiles self optimisation_level timeout :
  constructed self →
  (_has_arch self = true →
   ∃ arch, architecture (_backend_info self) = Arch arch ∧ coupling arch ≠ []) ∧
  ((0 ≤ optimisation_level < 4)%Z →
   ∃ passes, default_compilation_pass self optimisation_level timeout
             = Ok (SequencePass (DecomposeBoxes :: passes))) ∧
  (¬ (0 ≤ optimisation_level < 4)%Z →
   default_compilation_pass self optimisation_level timeout = Raise AssertionError).
Proof.
  intros Harch%constructed_arch.
  assert (default_compilation_pass self optimisation_level timeout
          = _arch_independent_default_compilation_pass self optimisation_level timeout
          ∨ ∃ arch, default_compilation_pass self optimisation_level timeout
                    = _arch_dependent_default_compilation_pass self arch
                        optimisation_level timeout) as Hcases.
  { unfold default_compilation_pass. destruct (_has_arch self); [|by left].
    destruct Harch as (arch & -> & Hc). right. exists arch.
    by destruct (coupling arch). }
  split_and!.
  - intros Hhas. by rewrite Hhas in Harch.
  - intros Hlevel.
    assert (optimisation_level = 0 ∨ optimisation_level = 1 ∨
            optimisation_level = 2 ∨ optimisation_level = 3)%Z as Hl by lia.
    destruct Hcases as [->|[arch ->]];
      unfold _arch_independent_default_compilation_pass,
        _arch_dependent_default_compilation_pass;
      rewrite decide_True by done;
      destruct Hl as [-> | [-> | [-> | ->]]]; simpl; by eexists.
  - intros Hlevel.
    destruct Hcases as [->|[arch ->]];
      unfold _arch_independent_default_compilation_pass,
        _arch_dependent_default_compilation_pass;
      by rewrite decide_False by done.
Qed.

(** X11: without crosstalk parameters, [AerBackend] and [AerDensityMatrixBackend]
    keep the noise model that they were given unless it is trivial, in which
    case they keep none, and they support expectation values: a backend that
    was built never holds a noise model whose [to_dict()] has only empty
    lists. *)
Theorem constructed_noise_model noise_model b :
  (∃ simulation_method n_qubits,
     AerBackend noise_model simulation_method None n_qubits = Ok b) ∨
  (∃ n_qubits, AerDensityMatrixBackend noise_model n_qubits = Ok b) →
  _supports_expectation b = true ∧
  _noise_model b = _map_trivial_noise_model_to_none noise_model ∧
  (∀ nm, _noise_model b = Some nm →
         noise_model = Some nm ∧
         ¬ map_Forall (λ _ value, is_empty_list value = true) (to_dict nm)) ∧
  (_noise_model b = None →
   noise_model = None ∨
   ∃ nm, noise_model = Some nm ∧
         map_Forall (λ _ value, is_empty_list value = true) (to_dict nm)).
Proof.
  intros Hb.
  assert (_supports_expectation b = true ∧
          _noise_model b = _map_trivial_noise_model_to_none noise_model) as [He Hn].
  { destruct Hb as [(sm & n & Hb)|(n & Hb)].
    - by apply AerBackend_Ok in Hb as (qb & c & _ & _ & ? & _ & _ & ? & _).
    - by apply AerDensityMatrixBackend_Ok in Hb as (qb & c & _ & _ & ? & _ & _ & ? & _). }
  split_and!; [done | done | |].
  - intros nm Hnm. rewrite Hn in Hnm. unfold _map_trivial_noise_model_to_none in Hnm.
    destruct noise_model as [nm'|]; [|done]. case_decide; by simplify_eq.
  - intros Hnone. rewrite Hn in Hnone. unfold _map_trivial_noise_model_to_none in Hnone.
    destruct noise_model as [nm'|]; [|by left]. case_decide; [|done]. right. eauto.
Qed.

(** X12: without crosstalk parameters, [AerBackend] sets [_has_arch] exactly when
    the characterisation of the noise model has couplings; the backend info
    then holds that architecture and otherwise [FullyConnected(n_qubits)];
    and the required predicates are the no-symbols and the gate-set
    predicate, together with a [ConnectivityPredicate] for the architecture
    of the backend info exactly when [_has_arch] is set. *)
Theorem AerBackend_connectivity noise_model simulation_method n_qubits b :
  AerBackend noise_model simulation_method None n_qubits = Ok b →
  (∃ c, characterise tbl noise_model (gate_set (_backend_info b)) = Ok c ∧
        (_has_arch b = true ↔ coupling (Noise.architecture c) ≠ []) ∧
        (_has_arch b = true →
         architecture (_backend_info b) = Arch (Noise.architecture c))) ∧
  (_has_arch b = false →
   architecture (_backend_info b) = FullyConnected n_qubits) ∧
  (∀ p, p ∈ _required_predicates b ↔
        p = NoSymbolsPredicate ∨
        p = GateSetPredicate (gate_set (_backend_info b)) ∨
        (_has_arch b = true ∧
         p = ConnectivityPredicate (architecture (_backend_info b)))).
Proof.
  intros Hb. pose proof Hb as Hb0.
  apply AerBackend_Ok in Hb as (qb & c & Hqb & Hc & _ & Hhas & Harch & _ & Hpreds).
  assert (gate_set (_backend_info b)
          = _tket_gate_set_from_qiskit_backend tbl (set_method simulation_method qb)
            ∪ _allowed_special_gates) as Hgs.
  { unfold Aer.AerBackend in Hb0. rewrite Hqb, bind_Ok_l in Hb0. cbv beta zeta in Hb0.
    rewrite Hc, bind_Ok_l in Hb0. cbv beta zeta in Hb0. by injection Hb0 as <-. }
  split_and!.
  - exists c. rewrite Hgs. split_and!; [done | |].
    + rewrite Hhas. by destruct (coupling (Noise.architecture c)).
    + intros Ht. rewrite Hhas in Ht. by rewrite Harch, Ht.
  - intros Hf. rewrite Hhas in Hf. by rewrite Harch, Hf.
  - intros p. rewrite Hpreds, Harch, Hhas.
    destruct (list_bool (coupling (Noise.architecture c)));
      cbn [app]; rewrite ?elem_of_cons, elem_of_nil; naive_solver.
Qed.

(** Crosstalk parameters override the noise model: with them, [AerBackend]
    is built whenever the simulator exists, whatever noise model is passed,
    even one that would fail to be characterised; the backend holds the noise
    model of the crosstalk parameters, an empty [Architecture] with
    [_has_arch] unset, no characterisation, and the five predicates without
    a [ConnectivityPredicate]. *)
Theorem crosstalk_overrides_noise_model noise_model simulation_method params n_qubits :
  AerBackend noise_model simulation_method (Some params) n_qubits
  = AerBackend None simulation_method (Some params) n_qubits ∧
  ((∀ qb, qiskit_aer_backend backends "aer_simulator" = Ok qb →
     ∃ b, AerBackend noise_model simulation_method (Some params) n_qubits = Ok b ∧
          simulator (_qiskit_backend b) = set_method simulation_method qb ∧
          _noise_model b = Some (crosstalk_noise_model params) ∧
          _crosstalk_params b = Some params ∧
          _has_arch b = false ∧
          architecture (_backend_info b) = Arch (mkArchitecture []) ∧
          misc (_backend_info b) = ∅ ∧
          all_node_gate_errors (_backend_info b) = None ∧
          all_edge_gate_errors (_backend_info b) = None ∧
          all_readout_errors (_backend_info b) = None ∧
          _required_predicates b
          = [NoSymbolsPredicate; GateSetPredicate (gate_set (_backend_info b));
             NoClassicalControlPredicate; DefaultRegisterPredicate;
             NoBarriersPredicate]) ∧
   (∀ e, qiskit_aer_backend backends "aer_simulator" = Raise e →
         AerBackend noise_model simulation_method (Some params) n_qubits = Raise e)).
Proof.
  unfold Aer.AerBackend. split; [done|]. split.
  - intros qb ->. rewrite bind_Ok_l. cbv beta zeta. eexists. split; [reflexivity|].
    split_and!; reflexivity.
  - by intros e ->.
Qed.

End constructed.

Section constructed_expectation.
Context {Circuit QuantumCircuit BackendResult CrosstalkParams Complex : Type}.
Variable tbl : string → option OpType.
Variable backends : list QiskitAerBackend.
Variable crosstalk_noise_model : CrosstalkParams → NoiseModel.
Variable n_qubits_of : Circuit → nat.
Variable tk_to_qiskit : Circuit → bool → QuantumCircuit.
Variable valid : list Predicate → Circuit → bool.
Variable qubits_of : Circuit → list Qubit.
Variable save_expectation_value :
  QuantumCircuit → Hamiltonian (Complex := Complex) → QuantumCircuit.
Variable snapshot : QuantumCircuit → Complex.

#[local] Notation Backend :=
  (AerBaseBackend (BackendResult := BackendResult) (CrosstalkParams := CrosstalkParams)).
#[local] Notation AerBackend :=
  (AerBackend (BackendResult := BackendResult) (CrosstalkParams := CrosstalkParams)
     tbl backends crosstalk_noise_model).
#[local] Notation AerStateBackend :=
  (AerStateBackend (BackendResult := BackendResult)
     (CrosstalkParams := CrosstalkParams) tbl backends).
#[local] Notation AerUnitaryBackend :=
  (AerUnitaryBackend (BackendResult := BackendResult)
     (CrosstalkParams := CrosstalkParams) tbl backends).
#[local] Notation AerDensityMatrixBackend :=
  (AerDensityMatrixBackend (BackendResult := BackendResult)
     (CrosstalkParams := CrosstalkParams) tbl backends).
#[local] Notation _snapshot_expectation_value :=
  (_snapshot_expectation_value (BackendResult := BackendResult)
     (CrosstalkParams := CrosstalkParams)
     tk_to_qiskit valid qubits_of save_expectation_value snapshot).
#[local] Notation get_pauli_expectation_value :=
  (get_pauli_expectation_value (BackendResult := BackendResult)
     (CrosstalkParams := CrosstalkParams)
     n_qubits_of tk_to_qiskit valid qubits_of save_expectation_value snapshot).
#[local] Notation get_operator_expectation_value :=
  (get_operator_expectation_value (BackendResult := BackendResult)
     (CrosstalkParams := CrosstalkParams)
     n_qubits_of tk_to_qiskit valid qubits_of save_expectation_value snapshot).

(** Both expectation-value methods refuse with the same exception and
    without any change of the backend. *)
#[local] Notation refuses b e :=
  (∀ state_circuit pauli operator valid_check,
     get_pauli_expectation_value state_circuit pauli valid_check b = (Raise e, b) ∧
     get_operator_expectation_value state_circuit operator valid_check b
     = (Raise e, b)).

(** The operator method hands the converted operator to the snapshot run. *)
#[local] Notation runs_snapshot b :=
  (∀ state_circuit operator valid_check,
     get_operator_expectation_value state_circuit operator valid_check b
     = _snapshot_expectation_value state_circuit
         (_qubitpauliop_to_sparsepauliop operator (n_qubits_of state_circuit))
         valid_check b).


End constructed_expectation.

#[local] Notation sample_noise_model :=
  (Sample.noise_model [Sample.quantum_error "cx" [0; 1] (99 # 100)]).
#[local] Notation sample_AerBackend :=
  (AerBackend (BackendResult := nat) (CrosstalkParams := unit)
     Sample.table Sample.backends (λ _, Sample.noise_model [])
     (Some sample_noise_model) "automatic" None 40).

Lemma sample_backend_built : ∃ b, sample_AerBackend = Ok b.
Proof. vm_compute. eexists. reflexivity. Qed.

Lemma constructed_backend_compiles_witness :
  ∃ b, sample_AerBackend = Ok b ∧
       ∃ passes, default_compilation_pass b 2 300
                 = Ok (SequencePass (DecomposeBoxes :: passes)).
Proof.
  destruct sample_backend_built as [b Hb]. exists b. split; [exact Hb|].
  destruct (constructed_backend_compiles Sample.table Sample.backends
              (λ _, Sample.noise_model []) b 2 300) as (_ & Hlevel & _).
  { left. exists (Some sample_noise_model), "automatic", None, 40. exact Hb. }
  apply Hlevel. lia.
Defined.

Lemma constructed_noise_model_witness :
  ∃ b, sample_AerBackend = Ok b ∧
       _supports_expectation b = true ∧
       _noise_model b = _map_trivial_noise_model_to_none (Some sample_noise_model).
Proof.
  destruct sample_backend_built as [b Hb]. exists b. split; [exact Hb|].
  destruct (constructed_noise_model Sample.table Sample.backends
              (λ _, Sample.noise_model []) (Some sample_noise_model) b)
    as (Hs & Hn & _).
  { left. exists "automatic", 40. exact Hb. }
  split; [exact Hs | exact Hn].
Defined.

Lemma AerBackend_connectivity_witness :
  ∃ b, sample_AerBackend = Ok b ∧
       ∀ p, p ∈ _required_predicates b ↔
            p = NoSymbolsPredicate ∨
            p = GateSetPredicate (gate_set (_backend_info b)) ∨
            (_has_arch b = true ∧
             p = ConnectivityPredicate (architecture (_backend_info b))).
Proof.
  destruct sample_backend_built as [b Hb]. exists b. split; [exact Hb|].
  exact (proj2 (proj2 (AerBackend_connectivity Sample.table Sample.backends
                         (λ _, Sample.noise_model []) _ _ _ b Hb))).
Defined.

End ConstructedFacts.

(** ** What the characterisation raises *)

Module NoiseOutcomes.
Import Noise NoiseFacts.

Section raises.
Variable tbl : string → option OpType.
Implicit Types (e : ErrorEvent) (es : list ErrorEvent) (st : LoopState) (ex : exn).

(** The exceptions of the loop over the errors. *)
#[local] Notation loop_exception ex :=
  (ex = KeyError ∨ ex = TypeError ∨ ex = IndexError ∨
   ex = RuntimeWarning msg_multiple_gates ∨ ex = RuntimeWarning msg_all_qubit).

#[local] Notation inner_nonempty st :=
  (map_Forall (λ _ (v : gmap OpType Q), v ≠ ∅) (st_node_errors st) ∧
   map_Forall (λ _ (v : gmap OpType Q), v ≠ ∅) (st_link_errors st)).











End raises.


End NoiseOutcomes.

(** ** Submission and retrieval *)

Module ExecInvariants.
Import Aer.

Section results.
Context {BackendResult CrosstalkParams : Type}.

#[local] Notation Backend :=
  (AerBaseBackend (BackendResult := BackendResult) (CrosstalkParams := CrosstalkParams)).
#[local] Notation Cache := (gmap ResultHandle (CacheEntry (BackendResult := BackendResult))).

Implicit Types (self : Backend) (cache : Cache) (brs : list BackendResult).

Lemma set_same self :
  set_cache (_cache self)
    (set_engine (mkEngine (simulator (_qiskit_backend self))
                   (jobs_submitted (_qiskit_backend self))
                   (result_calls (_qiskit_backend self))) self) = self.
Proof. by destruct self as [[] ?]. Qed.

(** What the storing loop keeps, whether it ends or raises: the keys of the
    cache, the job of every entry, and the presence of a result. *)
Lemma store_results_frame jobid qubit_n ppc brs :
  ∀ i cache r cache',
    store_results jobid qubit_n ppc i brs cache = (r, cache') →
    dom cache' = dom cache ∧
    (∀ h, cache' !! h ≫= entry_job = cache !! h ≫= entry_job) ∧
    (∀ h, is_Some (cache !! h ≫= entry_result) →
          is_Some (cache' !! h ≫= entry_result)) ∧
    (∀ e, r = Raise e → e = KeyError).
Proof.
  induction brs as [|br brs IH]; intros i cache r cache' Hs; simpl in Hs.
  - by simplify_eq.
  - destruct (cache !! (jobid, i, qubit_n, ppc)) as [e|] eqn:He.
    + apply IH in Hs as (Hdom & Hjob & Hres & Hexn). split_and!; [| | |done].
      * rewrite Hdom, dom_insert_L.
        apply elem_of_dom_2 in He. set_solver+ He.
      * intros h. rewrite Hjob.
        destruct (decide (h = (jobid, i, qubit_n, ppc))) as [->|Hne].
        -- by rewrite lookup_insert_eq, He.
        -- by rewrite lookup_insert_ne.
      * intros h Hh. apply Hres.
        destruct (decide (h = (jobid, i, qubit_n, ppc))) as [->|Hne].
        -- by rewrite lookup_insert_eq.
        -- by rewrite lookup_insert_ne.
    + simplify_eq. split_and!; [done | done | done |]. by intros e [= <-].
Qed.




(** X16: [get_result] never adds or removes a cache entry, never changes the job
    of an entry, never drops a result, submits nothing, and changes nothing
    else of the backend, whether it returns or raises; it calls [result()] at
    most once. *)
Theorem get_result_frame self handle :
  ∃ calls cache',
    (get_result handle self).2
    = set_cache cache'
        (set_engine (mkEngine (simulator (_qiskit_backend self))
                       (jobs_submitted (_qiskit_backend self)) calls) self) ∧
    result_calls (_qiskit_backend self) ≤ calls ≤ S (result_calls (_qiskit_backend self)) ∧
    dom cache' = dom (_cache self) ∧
    (∀ h, cache' !! h ≫= entry_job = _cache self !! h ≫= entry_job) ∧
    (∀ h, is_Some (_cache self !! h ≫= entry_result) →
          is_Some (cache' !! h ≫= entry_result)).
Proof.
  assert (∃ calls cache',
            self = set_cache cache'
                     (set_engine (mkEngine (simulator (_qiskit_backend self))
                        (jobs_submitted (_qiskit_backend self)) calls) self) ∧
            result_calls (_qiskit_backend self) ≤ calls
            ≤ S (result_calls (_qiskit_backend self)) ∧
            dom cache' = dom (_cache self) ∧
            (∀ h, cache' !! h ≫= entry_job = _cache self !! h ≫= entry_job) ∧
            (∀ h, is_Some (_cache self !! h ≫= entry_result) →
                  is_Some (cache' !! h ≫= entry_result))) as Hsame.
  { exists (result_calls (_qiskit_backend self)), (_cache self).
    split_and!; [by rewrite set_same | lia | lia | done | done | done]. }
  destruct handle as [[[jobid pos] qubit_n] ppc].
  unfold get_result, super_get_result.
  destruct (_cache self !! _ ≫= entry_result) as [r0|] eqn:Hr0; [done|].
  cbn beta iota.
  destruct (_cache self !! _ ≫= entry_job) as [job|] eqn:Hjob; [|done].
  unfold job_result. cbn beta iota zeta.
  change (_cache (set_engine _ self)) with (_cache self).
  destruct (store_results _ _ _ _ _ _) as [r cache'] eqn:Hs.
  apply store_results_frame in Hs as (Hdom & Hjobs & Hres & _).
  exists (S (result_calls (_qiskit_backend self))), cache'.
  split_and!; [|lia|lia|done|done|done].
  destruct r as [[]|e]; cbn beta iota zeta.
  - destruct (_cache (set_cache _ _) !! _ ≫= entry_result); reflexivity.
  - reflexivity.
Qed.

End results.

Section submission.
Context {Circuit QuantumCircuit BackendResult CrosstalkParams : Type}.
Variable new_job_id : nat → string.
Variable simulate :
  list QuantumCircuit → option nat → bool → option Z → option Noise.NoiseModel →
  list BackendResult.
Variable n_qubits_of : Circuit → nat.
Variable prepare_circuit : Circuit → Circuit * string.
Variable tk_to_qiskit : Circuit → bool → QuantumCircuit.
Variable save_state save_density_matrix save_unitary : QuantumCircuit → QuantumCircuit.
Variable transpile : list QuantumCircuit → QiskitAerBackend → list QuantumCircuit.
Variable noisy_circuit : CrosstalkParams → Circuit → Circuit.
Variable valid : list Predicate → Circuit → bool.

#[local] Notation Backend :=
  (AerBaseBackend (BackendResult := BackendResult) (CrosstalkParams := CrosstalkParams)).
#[local] Notation Cache := (gmap ResultHandle (CacheEntry (BackendResult := BackendResult))).
#[local] Notation lower :=
  (lower (BackendResult := BackendResult) (CrosstalkParams := CrosstalkParams)
     n_qubits_of prepare_circuit tk_to_qiskit save_state save_density_matrix
     save_unitary).
#[local] Notation submit_batches :=
  (submit_batches (BackendResult := BackendResult) (CrosstalkParams := CrosstalkParams)
     new_job_id simulate n_qubits_of prepare_circuit tk_to_qiskit save_state
     save_density_matrix save_unitary transpile).
#[local] Notation process_circuits :=
  (process_circuits (BackendResult := BackendResult) (CrosstalkParams := CrosstalkParams)
     new_job_id simulate n_qubits_of prepare_circuit tk_to_qiskit save_state
     save_density_matrix save_unitary transpile noisy_circuit valid).

(** The circuit that is lowered and its post-processing descriptor. *)
#[local] Notation prepared postprocess c :=
  (if postprocess then prepare_circuit c else (c, "null")).

(** The handle list and the cache agree with the circuits [cs]: a handle at
    position [ind] has a pending entry and carries the qubit count and the
    descriptor of circuit [ind]. *)
#[local] Notation good postprocess cs cache hl :=
  (∀ ind (h : ResultHandle), hl !! ind = Some (Some h) →
     pending cache h ∧
     ∃ c, cs !! ind = Some c ∧
          h.1.2 = n_qubits_of (prepared postprocess c).1 ∧
          h.2 = (prepared postprocess c).2).

Implicit Types (self : Backend) (cache : Cache) (cs batch : list Circuit)
  (hl : list (option ResultHandle)) (indices : list nat) (postprocess ris : bool).

Lemma pending_insert cache (h h' : ResultHandle) job :
  pending cache h → pending (<[h' := mkCacheEntry (Some job) None]> cache) h.
Proof.
  intros [job' Hh]. destruct (decide (h = h')) as [->|Hne].
  - exists job. by rewrite lookup_insert_eq.
  - exists job'. by rewrite lookup_insert_ne.
Qed.

Lemma mint_handles_spec postprocess cs job (counts : list nat) (ppcs : list string) :
  ∀ indices i hl cache,
    (∀ k ind, indices !! k = Some ind →
       ind < length hl ∧
       ∃ c, cs !! ind = Some c ∧
            counts !! (i + k) = Some (n_qubits_of (prepared postprocess c).1) ∧
            ppcs !! (i + k) = Some (prepared postprocess c).2) →
    good postprocess cs cache hl →
    ∃ hl' cache',
      mint_handles job counts ppcs i indices hl cache = (Ok hl', cache') ∧
      length hl' = length hl ∧
      good postprocess cs cache' hl' ∧
      (∀ ind, (∃ h, hl !! ind = Some (Some h)) ∨ ind ∈ indices →
              ∃ h, hl' !! ind = Some (Some h)) ∧
      dom cache ⊆ dom cache' ∧
      (∀ h, pending cache h → pending cache' h).
Proof.
  induction indices as [|ind indices IH]; intros i hl cache Hind Hgood.
  - exists hl, cache. split_and!; try done.
    intros ind [Hh|Hin]; [done | by apply elem_of_nil in Hin].
  - destruct (Hind 0 ind) as (Hlt & c & Hc & Hn & Hp); [done|].
    rewrite Nat.add_0_r in Hn, Hp. cbn [mint_handles].
    rewrite (proj2 (list_getitem_Ok _ _ _) Hn), (proj2 (list_getitem_Ok _ _ _) Hp).
    unfold list_setitem. rewrite decide_True by done.
    set (handle := (job_id job, i, n_qubits_of (prepared postprocess c).1,
                    (prepared postprocess c).2) : ResultHandle).
    destruct (IH (S i) (<[ind := Some handle]> hl)
                (<[handle := mkCacheEntry (Some job) None]> cache))
      as (hl' & cache' & Hmint & Hlen & Hgood' & Hfilled & Hdom & Hpend).
    { intros k ind' Hk. destruct (Hind (S k) ind' Hk) as (? & c' & ? & ? & ?).
      rewrite length_insert. split; [done|]. exists c'.
      by replace (S i + k) with (i + S k) by lia. }
    { intros ind' h Hh. destruct (decide (ind' = ind)) as [->|Hne].
      - rewrite list_lookup_insert_eq in Hh by done. simplify_eq. split.
        + exists job. by rewrite lookup_insert_eq.
        + by exists c.
      - rewrite list_lookup_insert_ne in Hh by done.
        destruct (Hgood ind' h Hh) as [Hpe Hc']. split; [|done].
        by apply pending_insert. }
    exists hl', cache'. split_and!; [done | by rewrite Hlen, length_insert | done | | |].
    + intros ind' [[h Hh]|Hin]; apply Hfilled.
      * destruct (decide (ind' = ind)) as [->|Hne].
        -- left. exists handle. by rewrite list_lookup_insert_eq.
        -- left. exists h. by rewrite list_lookup_insert_ne.
      * apply elem_of_cons in Hin as [->|Hin]; [|by right].
        left. exists handle. by rewrite list_lookup_insert_eq.
    + etrans; [|exact Hdom]. rewrite dom_insert. set_solver+.
    + intros h Hh. by apply Hpend, pending_insert.
Qed.

Lemma submit_batches_cons postprocess ris n batch indices batches seed hl self :
  submit_batches postprocess ris ((n, batch, indices) :: batches) seed hl self
  = let lowered := map (lower self postprocess ris) batch in
    let engine := _qiskit_backend self in
    let qcs :=
      if _needs_transpile self then transpile lowered.*1.*1 (simulator engine)
      else lowered.*1.*1 in
    let job :=
      mkAerJob (new_job_id (jobs_submitted engine))
        (simulate qcs n (_memory self) seed (_noise_model self)) in
    let self1 :=
      set_engine (mkEngine (simulator engine) (S (jobs_submitted engine))
                    (result_calls engine)) self in
    match mint_handles job lowered.*1.*2 lowered.*2 0 indices hl (_cache self) with
    | (Ok hl', cache) =>
      submit_batches postprocess ris batches (next_seed seed) hl' (set_cache cache self1)
    | (Raise e, cache) => (Raise e, set_cache cache self1)
    end.
Proof. reflexivity. Qed.

Lemma lower_count self postprocess ris c :
  (lower self postprocess ris c).1.2 = n_qubits_of (prepared postprocess c).1 ∧
  (lower self postprocess ris c).2 = (prepared postprocess c).2.
Proof. unfold Aer.lower. by destruct postprocess, (prepare_circuit c). Qed.

(** The loop over the batches, when every batch holds the circuits that its
    indices name. *)
Lemma submit_batches_spec postprocess ris cs
    (batches : list (option nat * list Circuit * list nat)) :
  ∀ seed hl self,
    Forall (λ b, Forall2 (λ ind c, ind < length hl ∧ cs !! ind = Some c) b.2 b.1.2)
      batches →
    good postprocess cs (_cache self) hl →
    ∃ hl' cache',
      submit_batches postprocess ris batches seed hl self
      = (Ok hl',
         set_cache cache'
           (set_engine (mkEngine (simulator (_qiskit_backend self))
                          (jobs_submitted (_qiskit_backend self) + length batches)
                          (result_calls (_qiskit_backend self))) self)) ∧
      length hl' = length hl ∧
      good postprocess cs cache' hl' ∧
      (∀ ind, (∃ h, hl !! ind = Some (Some h)) ∨ (∃ b, b ∈ batches ∧ ind ∈ b.2) →
              ∃ h, hl' !! ind = Some (Some h)) ∧
      dom (_cache self) ⊆ dom cache' ∧
      (∀ h, pending (_cache self) h → pending cache' h).
Proof.
  induction batches as [|[[n batch] indices] batches IH]; intros seed hl self Hwf Hgood.
  - exists hl, (_cache self). split_and!; try done.
    + cbn [Aer.submit_batches length]. by rewrite Nat.add_0_r, set_same.
    + intros ind [Hh|(b & Hb & _)]; [done | by apply elem_of_nil in Hb].
  - apply Forall_cons in Hwf as [Hbatch Hwf]. cbn [fst snd] in Hbatch.
    rewrite submit_batches_cons. cbv zeta.
    match goal with
    | |- context [mint_handles ?job ?counts ?ppcs 0 indices hl (_cache self)] =>
      destruct (mint_handles_spec postprocess cs job counts ppcs indices 0 hl
                  (_cache self))
        as (hl1 & cache1 & -> & Hlen1 & Hgood1 & Hfilled1 & Hdom1 & Hpend1)
    end.
    { intros k ind Hk.
      destruct (Forall2_lookup_l _ _ _ _ _ Hbatch Hk) as (c & Hc & Hlt & Hcs).
      split; [done|]. exists c. split; [done|].
      change (0 + k) with k.
      rewrite !list_lookup_fmap, Hc. cbn [fmap option_fmap option_map].
      by destruct (lower_count self postprocess ris c) as [-> ->]. }
    { done. }
    cbn beta iota.
    match goal with
    | |- context [Aer.submit_batches _ _ _ _ _ _ _ _ _ _ _
                    batches ?seed' hl1 ?self1] =>
      destruct (IH seed' hl1 self1)
        as (hl' & cache' & Hsub & Hlen & Hgood' & Hfilled & Hdom & Hpend)
    end.
    { rewrite Hlen1. exact Hwf. }
    { exact Hgood1. }
    exists hl', cache'. split_and!.
    + rewrite Hsub. cbn [length]. f_equal.
      unfold set_cache, set_engine. cbn. do 2 f_equal. lia.
    + by rewrite Hlen.
    + done.
    + intros ind [Hh|(b & Hb & Hin)]; apply Hfilled.
      * left. apply Hfilled1. by left.
      * apply elem_of_cons in Hb as [->|Hb]; [|right; by exists b].
        left. apply Hfilled1. by right.
    + etrans; [exact Hdom1 | exact Hdom].
    + intros h Hh. by apply Hpend, Hpend1.
Qed.

Lemma zip_batches {A B C} (f : B → C) (g : A → B) (l : list A) :
  zip (zip l (map f (map g l))) (map g l) = map (λ a, (a, f (g a), g a)) l.
Proof. induction l as [|a l IH]; [done|]. simpl. by rewrite IH. Qed.

Lemma omap_lookup_Forall2 cs indices (n : nat) :
  n = length cs → Forall (λ ind, ind < length cs) indices →
  Forall2 (λ ind c, ind < n ∧ cs !! ind = Some c) indices (omap (cs !!.) indices).
Proof.
  intros ->. induction 1 as [|ind indices Hlt _ IH]; [constructor|].
  cbn [omap list_omap]. destruct (lookup_lt_is_Some_2 _ _ Hlt) as [c Hc].
  rewrite Hc. by constructor.
Qed.

(** The batches of [_batch_circuits] hold the circuits that their indices
    name, there is one per distinct shot count, and every position belongs
    to one of them. *)
Lemma batch_circuits_spec cs (ns : list (option nat)) :
  length ns = length cs →
  let batches := zip (_batch_circuits cs ns).1 (_batch_circuits cs ns).2 in
  length batches = length (remove_dups ns) ∧
  Forall (λ b, Forall2 (λ ind c, ind < length cs ∧ cs !! ind = Some c) b.2 b.1.2)
    batches ∧
  (∀ ind, ind < length cs → ∃ b, b ∈ batches ∧ ind ∈ b.2).
Proof.
  intros Hlen. unfold _batch_circuits. cbn [fst snd]. rewrite zip_batches.
  split_and!.
  - by rewrite length_map.
  - apply Forall_map, Forall_forall. intros n _. cbn [fst snd].
    apply omap_lookup_Forall2; [done|].
    apply Forall_forall. intros ind [_ Hin%elem_of_seq]%list_elem_of_filter. lia.
  - intros ind Hind.
    destruct (lookup_lt_is_Some_2 ns ind) as [n Hn]; [lia|].
    eexists. split.
    + apply list_elem_of_fmap. exists n. split; [reflexivity|].
      apply elem_of_remove_dups. by eapply list_elem_of_lookup_2.
    + cbn [snd]. apply list_elem_of_filter. split; [done|].
      apply elem_of_seq. lia.
Qed.

(** The two ways in which [process_circuits] ends. *)
Lemma process_circuits_cases circuits n_shots valid_check postprocess seed self :
  let submitted :=
    match _crosstalk_params self with
    | Some params => map (noisy_circuit params) circuits
    | None => circuits
    end in
  let all_valid :=
    Forall (λ c, valid (_required_predicates self) c = true) circuits in
  match process_circuits circuits n_shots valid_check postprocess seed self with
  | (Ok handle_list, self') =>
    ∃ n_shots_list handles cache',
      _get_n_shots_as_list n_shots (length circuits) = Ok n_shots_list ∧
      (valid_check = true → all_valid) ∧
      handle_list = Some <$> handles ∧
      length handles = length circuits ∧
      self' = set_cache cache'
                (set_engine
                   (mkEngine (simulator (_qiskit_backend self))
                      (jobs_submitted (_qiskit_backend self)
                       + length (remove_dups n_shots_list))
                      (result_calls (_qiskit_backend self))) self) ∧
      dom (_cache self) ⊆ dom cache' ∧
      (∀ i h, handles !! i = Some h →
         pending cache' h ∧
         ∃ c, submitted !! i = Some c ∧
              h.1.2 = n_qubits_of (prepared postprocess c).1 ∧
              h.2 = (prepared postprocess c).2)
  | (Raise e, self') =>
    self' = self ∧
    ((∃ msg, e = ValueError msg) ∧
     _get_n_shots_as_list n_shots (length circuits) = Raise e ∨
     e = CircuitNotValidError ∧ valid_check = true ∧ ¬ all_valid)
  end.
Proof.
  intros submitted all_valid. unfold Aer.process_circuits.
  destruct (_get_n_shots_as_list n_shots (length circuits)) as [ns|e] eqn:Hns.
  2:{ split; [done|]. left. split; [|done].
      unfold _get_n_shots_as_list in Hns. case_decide; [done|].
      injection Hns as <-. by eexists. }
  assert (length ns = length circuits) as Hlen.
  { unfold _get_n_shots_as_list in Hns. case_decide; by simplify_eq. }
  assert ((if valid_check then _check_all_circuits valid self circuits else Ok ())
          = Ok () ∧ (valid_check = true → all_valid) ∨
          (if valid_check then _check_all_circuits valid self circuits else Ok ())
          = Raise CircuitNotValidError ∧ valid_check = true ∧ ¬ all_valid)
    as [[-> Hvalid]|(-> & Hcheck & Hinvalid)].
  { unfold _check_all_circuits. destruct valid_check; [|by left].
    case_decide; [left | right]; done. }
  2:{ split; [done|]. by right. }
  fold submitted.
  assert (length submitted = length circuits) as Hsub.
  { unfold submitted. destruct (_crosstalk_params self); [by rewrite length_map | done]. }
  destruct (_batch_circuits submitted ns) as [circuit_batches batch_order] eqn:Hb.
  destruct (batch_circuits_spec submitted ns) as (Hnb & Hwf & Hcover); [lia|].
  rewrite Hb in Hnb, Hwf, Hcover. cbn [fst snd] in Hnb, Hwf, Hcover.
  destruct (submit_batches_spec postprocess
              (_supports_state self || _supports_unitary self) submitted
              (zip circuit_batches batch_order) seed
              (replicate (length submitted) None) self)
    as (hl & cache' & -> & Hlhl & Hgood & Hfilled & Hdom & _).
  { by rewrite length_replicate. }
  { intros ind h Hh. apply lookup_replicate in Hh as [[=] _]. }
  rewrite length_replicate in Hlhl.
  assert (∃ handles, hl = Some <$> handles) as [handles ->].
  { exists (omap id hl). symmetry.
    assert (∀ l : list (option ResultHandle),
              (∀ j, j < length l → ∃ h', l !! j = Some (Some h')) →
              Some <$> omap id l = l) as Hall.
    { clear. induction l as [|[h'|] l IH]; intros Hl; [done | |].
      - cbn. f_equal. apply IH. intros j Hj. apply (Hl (S j)). simpl. lia.
      - destruct (Hl 0) as [? [=]]. simpl. lia. }
    apply Hall. intros j Hj. apply Hfilled. right.
    destruct (Hcover j) as (b & ? & ?); [lia|]. by exists b. }
  rewrite length_fmap in Hlhl.
  exists ns, handles, cache'. rewrite Hnb.
  split_and!; [done | done | done | lia | done | done |].
  intros i h Hh. apply (Hgood i h). by rewrite list_lookup_fmap, Hh.
Qed.



(** X18: when [process_circuits] returns, it returns one handle per circuit, none
    of them missing.  Each handle has a pending entry in the cache and
    carries the qubit count and the post-processing descriptor of its
    circuit, taken after the crosstalk construction when the backend has
    crosstalk parameters.  One job was submitted per distinct shot count, no
    [result()] was called, the cache kept the handles it had, and nothing
    else of the backend changed. *)
Theorem process_circuits_handles circuits n_shots valid_check postprocess seed self
    handle_list self' :
  process_circuits circuits n_shots valid_check postprocess seed self
  = (Ok handle_list, self') →
  ∃ n_shots_list handles cache',
    _get_n_shots_as_list n_shots (length circuits) = Ok n_shots_list ∧
    handle_list = Some <$> handles ∧
    length handles = length circuits ∧
    self' = set_cache cache'
              (set_engine
                 (mkEngine (simulator (_qiskit_backend self))
                    (jobs_submitted (_qiskit_backend self)
                     + length (remove_dups n_shots_list))
                    (result_calls (_qiskit_backend self))) self) ∧
    dom (_cache self) ⊆ dom cache' ∧
    (∀ i h, handles !! i = Some h →
       pending cache' h ∧
       ∃ c, match _crosstalk_params self with
            | Some params => map (noisy_circuit params) circuits
            | None => circuits
            end !! i = Some c ∧
            h.1.2 = n_qubits_of (prepared postprocess c).1 ∧
            h.2 = (prepared postprocess c).2).
Proof.
  intros Hpc.
  pose proof (process_circuits_cases circuits n_shots valid_check postprocess seed self)
    as Hcases.
  cbv zeta in Hcases. rewrite Hpc in Hcases.
  destruct Hcases as (ns & handles & cache' & ? & _ & ? & ? & ? & ? & ?).
  by exists ns, handles, cache'.
Qed.

(** X19: a handle that [process_circuits] returned can be used at once: [cancel]
    finds its job and returns, [circuit_status] finds its job and fails only
    if [_STATUS_MAP] lacks the status that the job reports, both without any
    change of the backend, and [get_result] does not raise
    [CircuitNotRunError]. *)
Theorem submitted_handles_usable circuits n_shots valid_check postprocess seed self
    handle_list self' h :
  process_circuits circuits n_shots valid_check postprocess seed self
  = (Ok handle_list, self') →
  Some h ∈ handle_list →
  ∃ job,
    cache_job h self' = Ok job ∧
    (∀ job_cancel, ∃ warnings, cancel job_cancel h self' = (Ok warnings, self')) ∧
    (∀ (JobStatus StatusEnum : Type) (job_status : AerJob → JobStatus) status_value
       (_STATUS_MAP : JobStatus → option StatusEnum),
       circuit_status job_status status_value _STATUS_MAP h self'
       = (match _STATUS_MAP (job_status job) with
          | Some status => Ok (status, status_value (job_status job))
          | None => Raise KeyError
          end, self')) ∧
    (∀ h', (get_result h self').1 ≠ Raise (CircuitNotRunError h')).
Proof.
  intros Hpc Hin.
  pose proof (process_circuits_cases circuits n_shots valid_check postprocess seed self)
    as Hcases.
  cbv zeta in Hcases. rewrite Hpc in Hcases.
  destruct Hcases as (ns & handles & cache' & _ & _ & -> & _ & -> & _ & Hgood).
  apply list_elem_of_fmap in Hin as (h0 & [= <-] & Hin).
  apply list_elem_of_lookup_1 in Hin as [i Hi].
  destruct (Hgood i h Hi) as [[job Hjob] _].
  exists job.
  assert (cache_job h
            (set_cache cache'
               (set_engine
                  (mkEngine (simulator (_qiskit_backend self))
                     (jobs_submitted (_qiskit_backend self) + length (remove_dups ns))
                     (result_calls (_qiskit_backend self))) self)) = Ok job) as Hcj.
  { unfold cache_job. cbn [_cache set_cache]. by rewrite Hjob. }
  split_and!.
  - done.
  - intros job_cancel. unfold cancel. rewrite Hcj.
    destruct (job_cancel job); by eexists.
  - intros JobStatus StatusEnum job_status status_value _STATUS_MAP.
    unfold circuit_status. rewrite Hcj. cbv zeta.
    by destruct (_STATUS_MAP (job_status job)).
  - intros h'. destruct h as [[[jobid pos] qubit_n] ppc].
    unfold get_result, super_get_result. cbn [_cache set_cache].
    rewrite Hjob. cbn. rewrite Hjob. cbn.
    destruct (store_results _ _ _ _ _ _) as [[[]|e] cache''] eqn:Hs; cbn.
    + by destruct (cache'' !! _ ≫= entry_result).
    + apply store_results_frame in Hs as (_ & _ & _ & He).
      by rewrite (He e eq_refl).
Qed.







End submission.

Section expectation.
Context {Circuit QuantumCircuit BackendResult CrosstalkParams Complex : Type}.
Variable n_qubits_of : Circuit → nat.
Variable tk_to_qiskit : Circuit → bool → QuantumCircuit.
Variable valid : list Predicate → Circuit → bool.
Variable qubits_of : Circuit → list Qubit.
Variable save_expectation_value :
  QuantumCircuit → Hamiltonian (Complex := Complex) → QuantumCircuit.
Variable snapshot : QuantumCircuit → Complex.

#[local] Notation Backend :=
  (AerBaseBackend (BackendResult := BackendResult) (CrosstalkParams := CrosstalkParams)).
#[local] Notation _snapshot_expectation_value :=
  (_snapshot_expectation_value (BackendResult := BackendResult)
     (CrosstalkParams := CrosstalkParams)
     tk_to_qiskit valid qubits_of save_expectation_value snapshot).
#[local] Notation get_pauli_expectation_value :=
  (get_pauli_expectation_value (BackendResult := BackendResult)
     (CrosstalkParams := CrosstalkParams)
     n_qubits_of tk_to_qiskit valid qubits_of save_expectation_value snapshot).
#[local] Notation get_operator_expectation_value :=
  (get_operator_expectation_value (BackendResult := BackendResult)
     (CrosstalkParams := CrosstalkParams)
     n_qubits_of tk_to_qiskit valid qubits_of save_expectation_value snapshot).

(** The qubits [q[i]], [q[i+1]], ... of the default register. *)
#[local] Notation default_register i n := (map (λ j, mkQubit "q" [j]) (seq i n)).

Implicit Types (self : Backend).



End expectation.

(** Two circuits on two qubits, submitted together to the sample backend. *)
#[local] Notation sample_call circuits n_shots :=
  (Sample.process_circuits circuits n_shots true false None Sample.ideal_backend).
#[local] Notation sample_pair :=
  (sample_call [(2, "bell"); (2, "ghz")] (NShots_all (Some 100))).
#[local] Notation sample_handle := (Sample.new_job_id 0, 1, 2, "null").

Lemma pair_eta_fst {A B} (p : A * B) (a : A) : p.1 = a → p = (a, p.2).
Proof. destruct p. simpl. by intros ->. Qed.

Ltac by_projections := apply pair_eta_fst; vm_compute; reflexivity.

Lemma sample_call_returns :
  sample_pair
  = (Ok [Some (Sample.new_job_id 0, 0, 2, "null"); Some sample_handle], sample_pair.2).
Proof. by_projections. Qed.


Lemma sample_result_fetched :
  Sample.get_result sample_handle sample_pair.2
  = (Ok "result of ghz", (Sample.get_result sample_handle sample_pair.2).2).
Proof. by_projections. Qed.

Lemma get_result_cached_witness :
  ∃ self2,
    Sample.get_result sample_handle sample_pair.2 = (Ok "result of ghz", self2) ∧
    Sample.get_result sample_handle self2 = (Ok "result of ghz", self2).
Proof.
  eexists. split; [exact sample_result_fetched|].
  exact (proj2 (ExecFacts.get_result_cached _ _ _ _ sample_result_fetched)).
Defined.


Lemma process_circuits_handles_witness :
  ∃ handles,
    sample_pair.1 = Ok (Some <$> handles) ∧ length handles = 2 ∧
    ∀ i h, handles !! i = Some h → pending (_cache sample_pair.2) h.
Proof.
  destruct (process_circuits_handles _ _ _ _ _ _ _ _ _ _ _ _ _ _ _ _ _ _ _
              sample_call_returns)
    as (ns & handles & cache' & _ & Hhl & Hlen & Hself & _ & Hgood).
  exists handles. split_and!.
  - rewrite sample_call_returns. cbn [fst]. by rewrite Hhl.
  - exact Hlen.
  - intros i h Hh. rewrite Hself. exact (proj1 (Hgood i h Hh)).
Defined.

Lemma submitted_handles_usable_witness :
  ∃ job,
    cache_job sample_handle sample_pair.2 = Ok job ∧
    cancel (λ _, true) sample_handle sample_pair.2 = (Ok [], sample_pair.2).
Proof.
  destruct (submitted_handles_usable _ _ _ _ _ _ _ _ _ _ _ _ _ _ _ _ _ _ _
              sample_handle sample_call_returns) as (job & Hjob & Hcancel & _).
  { apply elem_of_cons. right. apply list_elem_of_here. }
  exists job. split; [exact Hjob|]. unfold cancel. by rewrite Hjob.
Defined.


End ExecInvariants.
